(** * dso-device-serial-number-masker: the masking engine and the file pipeline

    A shallow embedding of [main.py].  Python values are modelled as follows.
    - a [str] is the list of its code points, a [bytes] object a list of bytes;
    - the process-wide random generator, the records handed to [logging] and
      the file system form one [World], threaded through a state monad [M];
    - the [re] module is an interface ([Engine]): [re.compile] and the search
      primitive that [re.sub] iterates.  [re_sub] is the substitution loop of
      CPython written over that interface.  Module [Sre] gives an executable
      engine for a fragment of the pattern language, enough for the default
      patterns;
    - [chardet] and the codecs are an interface ([Codecs]);
    - a Python exception that [main.py] does not catch is a [Raise] result. *)

From Stdlib Require Import Strings.Byte String Ascii.
From Stdlib Require Import NArith ZArith Bool Arith Lia List.
Import ListNotations.
Local Open Scope list_scope.

Set Implicit Arguments.

(** ** Python strings *)

Definition char := N.
Definition str := list char.
Definition bytes := list byte.

(** A string literal, as code points. *)
Definition py (s : string) : str := map N_of_ascii (list_ascii_of_string s).
Arguments py s%_string.

(** [len(s)] *)
Definition len (s : str) : Z := Z.of_nat (length s).

(** [s[i:j]] for indices [0 <= i], [0 <= j]. *)
Definition slice (s : str) (i j : nat) : str := firstn (j - i) (skipn i s).

(** [string.ascii_uppercase] and [string.digits] *)
Definition ascii_uppercase : str := py "ABCDEFGHIJKLMNOPQRSTUVWXYZ".
Definition digits : str := py "0123456789".

(** ** The world: random generator, log records, file system *)

(** The generator behind [random.choice].  The values it will deliver are an
    arbitrary sequence; [cursor] counts the draws made so far. *)
Record Random := { draws : nat -> nat; cursor : nat }.

Definition path := string.
Definition encoding := string.
Bind Scope string_scope with path encoding.

Inductive level := DEBUG | INFO | ERROR.

(** One constructor per logging call of [main.py], with the values that the
    message interpolates (the text of a caught exception is left out). *)
Inductive message :=
| Masking (matched_string masked_string : str)
| InvalidRegularExpression (pattern : str)
| FailedToDetectEncoding (input_file : path)
| ErrorDecodingFile (input_file : path) (enc : encoding)
| InputFileNotFound (input_file : path)
| ErrorReadingInputFile (input_file : path)
| SuccessfullyProcessed (input_file output_file : path)
| ErrorWritingOutputFile (output_file : path).

Inductive node := File (data : bytes) | Directory.

(** The file system as [open] sees it: what is stored under a path, whether
    opening it for reading or for writing is refused, and how many bytes the
    device takes for a path before a write fails ([None]: no limit).  A path
    is a key: two spellings of one path, and links, are not modelled, so
    nothing is said here on whether two names are one file. *)
Record FileSystem := {
  nodes : path -> option node;
  read_refused : path -> bool;
  write_refused : path -> bool;
  room : path -> option nat
}.

Record World := {
  random : Random;
  records : list (level * message);
  disk : FileSystem
}.

(** ** State monad over the world *)

Definition M (A : Type) : Type := World -> A * World.

Definition ret {A} (a : A) : M A := fun w => (a, w).

Definition bind {A B} (m : M A) (k : A -> M B) : M B :=
  fun w => let (a, w') := m w in k a w'.

Notation "x <- m ;; k" := (bind m (fun x => k))
  (at level 61, m at next level, right associativity).
Notation "m ;; k" := (bind m (fun _ => k))
  (at level 61, right associativity).

(** [random._randbelow(n)], [0 <= result < n] for [0 < n]. *)
Definition randbelow (n : nat) : M nat := fun w =>
  let r := random w in
  (draws r (cursor r) mod n,
   {| random := {| draws := draws r; cursor := S (cursor r) |};
      records := records w;
      disk := disk w |}).

(** [random.choice(seq)] is [seq[self._randbelow(len(seq))]]. *)
Definition choice (seq : str) : M char :=
  i <- randbelow (length seq) ;;
  ret (nth i seq 0%N).

Definition logging_log (l : level) (m : message) : M unit := fun w =>
  (tt, {| random := random w;
          records := records w ++ [(l, m)];
          disk := disk w |}).

Definition logging_debug := logging_log DEBUG.
Definition logging_info := logging_log INFO.
Definition logging_error := logging_log ERROR.

(** ** generate_random_string *)

(** [''.join(random.choice(characters) for i in range(n))] *)
Fixpoint join_choices (characters : str) (n : nat) : M str :=
  match n with
  | O => ret []
  | S n' =>
      c <- choice characters ;;
      cs <- join_choices characters n' ;;
      ret (c :: cs)
  end.

(** [range(length)] is empty for a negative [length]. *)
Definition generate_random_string (length : Z) : M str :=
  let characters := ascii_uppercase ++ digits in
  join_choices characters (Z.to_nat length).

(** ** mask_serial_number *)

(** A [re.Match]: the subject string and the span of the whole match. *)
Record Match := { m_string : str; m_start : nat; m_end : nat }.

(** [match.group(0)] *)
Definition group0 (m : Match) : str :=
  slice (m_string m) (m_start m) (m_end m).

Definition mask_serial_number (m : Match) : M str :=
  let matched_string := group0 m in
  masked_string <- generate_random_string (len matched_string) ;;
  logging_debug (Masking matched_string masked_string) ;;
  ret masked_string.

(** ** The [re] module *)

(** Exceptions other than [re.error] that compiling a pattern can raise. *)
Inductive exception := OverflowError | RecursionError.

Inductive compiled (P : Type) :=
| Compiled (p : P)
| re_error
| raises (e : exception).
Arguments re_error {P}.
Arguments raises {P} e.

(** [search p s i must_advance] is the engine's search in [s] from position
    [i]: the span [(b, e)] of the leftmost match that starts at [i] or later,
    where under [must_advance] a match starting at [i] itself is not empty. *)
Record Engine := {
  Pattern : Type;
  compile : str -> compiled Pattern;
  search : Pattern -> str -> nat -> bool -> option (nat * nat);
  search_bounds : forall p s i adv b e,
    search p s i adv = Some (b, e) -> i <= b /\ b <= e /\ e <= length s;
  search_advance : forall p s i b e,
    search p s i true = Some (b, e) -> i < e
}.

(** The result of a function that may let an exception escape. *)
Inductive result (A : Type) :=
| Return (a : A)
| Raise (e : exception).
Arguments Raise {A} e.

Section Masking.

Variable E : Engine.

(** The loop of [re.sub(pattern, repl, string)] with a callable [repl]
    (CPython, [pattern_subx]): search from the end [i] of the previous match,
    copy [string[i:b]], append [repl(match)], go on from [e], asking for an
    advance when the match was empty; after the last match copy the rest.
    [fuel] bounds the number of iterations; by [subx_runs_the_loop] the
    bound that [re_sub] gives is never reached. *)
Fixpoint subx (fuel : nat) (p : Pattern E) (repl : Match -> M str)
    (s : str) (i : nat) (must_advance : bool) : M str :=
  match fuel with
  | O => ret (slice s i (length s))
  | S fuel' =>
      match search E p s i must_advance with
      | None => ret (slice s i (length s))
      | Some (b, e) =>
          item <- repl {| m_string := s; m_start := b; m_end := e |} ;;
          rest <- subx fuel' p repl s e (Nat.eqb e b) ;;
          ret (slice s i b ++ item ++ rest)
      end
  end.

Definition re_sub (p : Pattern E) (repl : Match -> M str) (s : str) : M str :=
  subx (2 + 2 * length s) p repl s 0 false.

(** The iterations still possible from position [i] of [s]: fewer than the
    fuel that [re_sub] gives. *)
Definition remaining (s : str) (i : nat) (must_advance : bool) : nat :=
  2 * (length s - i) + (if must_advance then 0 else 1).

(** The same loop as a relation, without a bound: from position [i] and the
    world [w] it produces [out] and leaves the world [w']. *)
Inductive sub_loop (p : Pattern E) (repl : Match -> M str) (s : str)
    : nat -> bool -> World -> str -> World -> Prop :=
| loop_done i must_advance w :
    search E p s i must_advance = None ->
    sub_loop p repl s i must_advance w (slice s i (length s)) w
| loop_match i must_advance w b e item w1 rest w2 :
    search E p s i must_advance = Some (b, e) ->
    repl {| m_string := s; m_start := b; m_end := e |} w = (item, w1) ->
    sub_loop p repl s e (Nat.eqb e b) w1 rest w2 ->
    sub_loop p repl s i must_advance w (slice s i b ++ item ++ rest) w2.

(** [re.search(pattern, text)] finds nothing. *)
Definition unmatched (text : str) (pattern : str) : bool :=
  match compile E pattern with
  | Compiled p =>
      match search E p text 0 false with
      | None => true
      | Some _ => false
      end
  | _ => false
  end.

(** [re.compile(pattern)] returns. *)
Definition compiles (pattern : str) : bool :=
  match compile E pattern with
  | Compiled _ => true
  | _ => false
  end.

(** Every match that a search in [s] can report, from any position, is
    empty. *)
Definition only_empty_matches (p : Pattern E) (s : str) : bool :=
  forallb
    (fun i =>
       forallb
         (fun must_advance =>
            match search E p s i must_advance with
            | None => true
            | Some (b, e) => Nat.eqb b e
            end)
         [false; true])
    (seq 0 (S (length s))).

(** ** mask_serial_numbers_in_text *)

(** The [for] loop over [serial_patterns], on the current [masked_text]. *)
Fixpoint for_patterns (serial_patterns : list str) (masked_text : str)
    : M (result (option str)) :=
  match serial_patterns with
  | [] => ret (Return (Some masked_text))
  | pattern :: rest =>
      match compile E pattern with
      | Compiled p =>
          masked_text' <- re_sub p mask_serial_number masked_text ;;
          for_patterns rest masked_text'
      | re_error =>
          logging_error (InvalidRegularExpression pattern) ;;
          ret (Return None)
      | raises e => ret (Raise e)
      end
  end.

Definition mask_serial_numbers_in_text (text : str) (serial_patterns : list str)
    : M (result (option str)) :=
  let masked_text := text in
  for_patterns serial_patterns masked_text.

End Masking.

(** ** The file pipeline *)

(** [chardet.detect(raw)['encoding']], [bytes.decode] and the encoder of the
    text file that [open(path, 'w', encoding=...)] returns.  [LookupError]
    stands for every exception of [decode] that is not a
    [UnicodeDecodeError], as for an encoding name that Python does not
    know. *)
Inductive decoded :=
| Decoded (text : str)
| UnicodeDecodeError
| LookupError.

Record Codecs := {
  detect : bytes -> option encoding;
  decode : encoding -> bytes -> decoded;
  encode : encoding -> str -> option bytes
}.

(** [open(input_file, 'rb')] followed by [f.read()] *)
Inductive opened :=
| Opened (raw_data : bytes)
| FileNotFoundError
| OSError.

Definition read_file (input_file : path) : M opened := fun w =>
  (match nodes (disk w) input_file with
   | None => FileNotFoundError
   | Some Directory => OSError
   | Some (File raw_data) =>
       if read_refused (disk w) input_file then OSError else Opened raw_data
   end, w).

Definition store (fs : FileSystem) (p : path) (data : bytes) : FileSystem :=
  {| nodes := fun q => if String.eqb q p then Some (File data) else nodes fs q;
     read_refused := read_refused fs;
     write_refused := write_refused fs;
     room := room fs |}.

Definition with_disk (w : World) (fs : FileSystem) : World :=
  {| random := random w; records := records w; disk := fs |}.

(** [open(output_file, 'w', ...)]: [false] when it raises; otherwise the file
    now exists and is empty. *)
Definition open_w (output_file : path) : M bool := fun w =>
  match nodes (disk w) output_file with
  | Some Directory => (false, w)
  | _ =>
      if write_refused (disk w) output_file then (false, w)
      else (true, with_disk w (store (disk w) output_file []))
  end.

(** Writing the encoded text and closing the file: [false] when the device
    takes fewer bytes than there are, and then the file holds what it took. *)
Definition write_bytes (output_file : path) (data : bytes) : M bool := fun w =>
  match room (disk w) output_file with
  | None => (true, with_disk w (store (disk w) output_file data))
  | Some n =>
      if n <? length data
      then (false, with_disk w (store (disk w) output_file (firstn n data)))
      else (true, with_disk w (store (disk w) output_file data))
  end.

Section Pipeline.

Variable E : Engine.
Variable C : Codecs.

Definition process_file (input_file output_file : path)
    (serial_patterns : list str) : M (result bool) :=
  f <- read_file input_file ;;
  match f with
  | FileNotFoundError =>
      logging_error (InputFileNotFound input_file) ;;
      ret (Return false)
  | OSError =>
      logging_error (ErrorReadingInputFile input_file) ;;
      ret (Return false)
  | Opened raw_data =>
      match detect C raw_data with
      | None =>
          logging_error (FailedToDetectEncoding input_file) ;;
          ret (Return false)
      | Some enc =>
          match decode C enc raw_data with
          | UnicodeDecodeError =>
              logging_error (ErrorDecodingFile input_file enc) ;;
              ret (Return false)
          | LookupError =>
              logging_error (ErrorReadingInputFile input_file) ;;
              ret (Return false)
          | Decoded text =>
              masked <- mask_serial_numbers_in_text E text serial_patterns ;;
              match masked with
              | Raise e => ret (Raise e)
              | Return None => ret (Return false)
              | Return (Some masked_text) =>
                  is_open <- open_w output_file ;;
                  if is_open then
                    match encode C enc masked_text with
                    | None =>
                        logging_error (ErrorWritingOutputFile output_file) ;;
                        ret (Return false)
                    | Some data =>
                        written <- write_bytes output_file data ;;
                        if written then
                          logging_info
                            (SuccessfullyProcessed input_file output_file) ;;
                          ret (Return true)
                        else
                          logging_error (ErrorWritingOutputFile output_file) ;;
                          ret (Return false)
                    end
                  else
                    logging_error (ErrorWritingOutputFile output_file) ;;
                    ret (Return false)
              end
          end
      end
  end.

(** The failures of a run that come before [open(output_file, 'w')], under
    the names the specification gives them. *)
Inductive fails_before_writing (input_file : path)
    (serial_patterns : list str) (w : World) : Prop :=
| NotFound :
    nodes (disk w) input_file = None ->
    fails_before_writing input_file serial_patterns w
| ReadError :
    fst (read_file input_file w) = OSError ->
    fails_before_writing input_file serial_patterns w
| EncodingUndetected raw_data :
    fst (read_file input_file w) = Opened raw_data ->
    detect C raw_data = None ->
    fails_before_writing input_file serial_patterns w
| DecodeError raw_data enc :
    fst (read_file input_file w) = Opened raw_data ->
    detect C raw_data = Some enc ->
    (forall text, decode C enc raw_data <> Decoded text) ->
    fails_before_writing input_file serial_patterns w
| MaskingError raw_data enc text :
    fst (read_file input_file w) = Opened raw_data ->
    detect C raw_data = Some enc ->
    decode C enc raw_data = Decoded text ->
    (forall masked_text,
       fst (mask_serial_numbers_in_text E text serial_patterns w)
       <> Return (Some masked_text)) ->
    fails_before_writing input_file serial_patterns w.

(** "Either the full masked text is written to the output path (success) or
    nothing is written to the output path (failure)", for one run. *)
Definition all_or_nothing (input_file output_file : path)
    (serial_patterns : list str) (w : World) : Prop :=
  let (r, w') := process_file input_file output_file serial_patterns w in
  (r = Return true /\
   exists data, nodes (disk w') output_file = Some (File data)) \/
  (r <> Return true /\
   nodes (disk w') output_file = nodes (disk w) output_file).

End Pipeline.

(** ** The defaults of the command line *)

Definition DEFAULT_SERIAL_PATTERNS : list str := [
  py "[A-Z0-9]{8}-[A-Z0-9]{4}-[A-Z0-9]{4}-[A-Z0-9]{4}-[A-Z0-9]{12}";
  py "SN:[A-Z0-9]{10}";
  py "[A-Z0-9]{15,20}"
].

(** ** An executable engine for a fragment of the pattern language

    The fragment: literal characters, [.], escaped punctuation, character
    sets [[...]] and [[^...]] of characters and ranges, each optionally
    followed by one greedy quantifier [?], [*], [+], [{m}], [{m,}], [{,n}] or
    [{m,n}].  Groups, alternation, anchors, lazy and possessive quantifiers
    and escapes of letters or digits are outside the fragment: [parse]
    answers [re_error] for them, also where Python accepts the pattern. *)

Module Sre.

Local Open Scope N_scope.

Definition ord (a : ascii) : char := N_of_ascii a.
Arguments ord a%_char.

Definition MAXREPEAT : N := 4294967295.

Inductive charset :=
| Literal (c : char)
| AnyChar
| In (negate : bool) (ranges : list (char * char)).

(** An atom under a greedy repeat of [min_repeat] to [max_repeat] times
    ([None]: [MAXREPEAT], no upper bound). *)
Record item := {
  atom : charset;
  min_repeat : N;
  max_repeat : option N
}.

Definition pattern := list item.

Definition once (a : charset) : item :=
  {| atom := a; min_repeat := 1; max_repeat := Some 1 |}.

(** *** Parsing *)

(** The tokenizer pairs a backslash with the character after it. *)
Inductive token := Plain (c : char) | Escaped (c : char).

(** The tokens of a pattern, and whether a lone backslash ends it. *)
Fixpoint tokenize (source : str) : list token * bool :=
  match source with
  | [] => ([], false)
  | c :: rest =>
      if c =? ord "\" then
        match rest with
        | [] => ([], true)
        | d :: rest' =>
            let (ts, dangling) := tokenize rest' in (Escaped d :: ts, dangling)
        end
      else
        let (ts, dangling) := tokenize rest in (Plain c :: ts, dangling)
  end.

Definition is_digit (c : char) : bool := (ord "0" <=? c) && (c <=? ord "9").

Definition is_ascii_letter (c : char) : bool :=
  ((ord "a" <=? c) && (c <=? ord "z")) || ((ord "A" <=? c) && (c <=? ord "Z")).

(** [int(ds)] of a string of digits, most significant first; [None] for the
    empty string. *)
Definition int (ds : list char) : option N :=
  match ds with
  | [] => None
  | _ => Some (fold_left (fun n d => 10 * n + (d - ord "0")) ds 0)
  end.

(** Where the parser stands.  [acc] holds the items read so far, the last one
    first; [fresh] tells that the last item has no quantifier yet. *)
Inductive member_state :=
| AtMember
| Have (code1 : char)
| Dash (code1 : char).

Inductive state :=
| Top (acc : list item) (fresh : bool)
| SetStart (acc : list item)
| InSet (acc : list item) (negate : bool) (set : list (char * char))
    (m : member_state)
| Braces (acc : list item) (fresh : bool) (lo : list char)
    (hi : option (list char))
| Failed (f : compiled pattern).

(** The quantifier [{min,max}] applied to the last item: "nothing to repeat"
    when there is none, "multiple repeat" when it has a quantifier. *)
Definition repeat (acc : list item) (fresh : bool) (min : N) (max : option N)
    : state :=
  match acc with
  | [] => Failed re_error
  | it :: acc' =>
      if fresh
      then Top ({| atom := atom it; min_repeat := min; max_repeat := max |}
                  :: acc') false
      else Failed re_error
  end.

(** The closing brace of [{lo,hi}] (of [{lo}] when [hi] is [None]). *)
Definition close_braces (acc : list item) (fresh : bool)
    (lo : list char) (hi : option (list char)) : state :=
  let hi := match hi with Some ds => ds | None => lo end in
  let min := match int lo with Some n => n | None => 0 end in
  if MAXREPEAT <=? min then Failed (raises OverflowError)
  else match int hi with
       | Some max =>
           if MAXREPEAT <=? max then Failed (raises OverflowError)
           else if max <? min then Failed re_error
           else repeat acc fresh min (Some max)
       | None => repeat acc fresh min None
       end.

(** The characters after a [{] that turned out not to open a quantifier are
    literals, and so is the [{]. *)
Definition reread (acc : list item) (lo : list char) (hi : option (list char))
    : list item :=
  let read := ord "{" :: lo ++
              match hi with Some ds => ord "," :: ds | None => [] end in
  rev (map (fun c => once (Literal c)) read) ++ acc.

Definition escape (c : char) : option charset :=
  if is_ascii_letter c || is_digit c then None else Some (Literal c).

Definition step_top (acc : list item) (fresh : bool) (t : token) : state :=
  match t with
  | Escaped c =>
      match escape c with
      | Some a => Top (once a :: acc) true
      | None => Failed re_error
      end
  | Plain c =>
      if c =? ord "[" then SetStart acc
      else if c =? ord "?" then repeat acc fresh 0 (Some 1)
      else if c =? ord "*" then repeat acc fresh 0 None
      else if c =? ord "+" then repeat acc fresh 1 None
      else if c =? ord "{" then Braces acc fresh [] None
      else if c =? ord "." then Top (once AnyChar :: acc) true
      else if (c =? ord "(") || (c =? ord ")") || (c =? ord "|")
              || (c =? ord "^") || (c =? ord "$")
      then Failed re_error
      else Top (once (Literal c) :: acc) true
  end.

Definition close_set (acc : list item) (negate : bool)
    (set : list (char * char)) : state :=
  Top (once (In negate (rev set)) :: acc) true.

Definition range (acc : list item) (negate : bool) (set : list (char * char))
    (lo hi : char) : state :=
  if hi <? lo then Failed re_error
  else InSet acc negate ((lo, hi) :: set) AtMember.

Definition step_member (acc : list item) (negate : bool)
    (set : list (char * char)) (t : token) : state :=
  match t with
  | Escaped c =>
      match escape c with
      | Some _ => InSet acc negate set (Have c)
      | None => Failed re_error
      end
  | Plain c =>
      if (c =? ord "]") && negb (Nat.eqb (length set) 0)
      then close_set acc negate set
      else InSet acc negate set (Have c)
  end.

Definition step (st : state) (t : token) : state :=
  match st with
  | Failed f => Failed f
  | Top acc fresh => step_top acc fresh t
  | SetStart acc =>
      match t with
      | Plain c =>
          if c =? ord "^" then InSet acc true [] AtMember
          else step_member acc false [] t
      | Escaped _ => step_member acc false [] t
      end
  | InSet acc negate set AtMember => step_member acc negate set t
  | InSet acc negate set (Have code1) =>
      match t with
      | Plain c =>
          if c =? ord "-" then InSet acc negate set (Dash code1)
          else step_member acc negate ((code1, code1) :: set) t
      | Escaped _ => step_member acc negate ((code1, code1) :: set) t
      end
  | InSet acc negate set (Dash code1) =>
      match t with
      | Plain c =>
          if c =? ord "]"
          then close_set acc negate
                 ((ord "-", ord "-") :: (code1, code1) :: set)
          else range acc negate set code1 c
      | Escaped c =>
          match escape c with
          | Some _ => range acc negate set code1 c
          | None => Failed re_error
          end
      end
  | Braces acc fresh lo hi =>
      match t with
      | Plain c =>
          if is_digit c then
            match hi with
            | None => Braces acc fresh (lo ++ [c]) None
            | Some ds => Braces acc fresh lo (Some (ds ++ [c]))
            end
          else if (c =? ord ",") && (match hi with None => true | _ => false end)
          then Braces acc fresh lo (Some [])
          else if (c =? ord "}")
                  && negb (match lo, hi with [], None => true | _, _ => false end)
          then close_braces acc fresh lo hi
          else step_top (reread acc lo hi) true t
      | Escaped _ => step_top (reread acc lo hi) true t
      end
  end.

Definition finish (st : state) : compiled pattern :=
  match st with
  | Top acc _ => Compiled (rev acc)
  | Braces acc _ lo hi => Compiled (rev (reread acc lo hi))
  | SetStart _ | InSet _ _ _ _ => re_error
  | Failed f => f
  end.

(** The tokenizer reads one token ahead: a lone backslash at the end of the
    pattern is reported when the token before it is taken. *)
Definition parse (source : str) : compiled pattern :=
  let (tokens, dangling) := tokenize source in
  if dangling then
    match fold_left step (removelast tokens) (Top [] false) with
    | Failed f => f
    | _ => re_error
    end
  else finish (fold_left step tokens (Top [] false)).


(** *** Matching *)

Definition member (a : charset) (c : char) : bool :=
  match a with
  | Literal d => c =? d
  | AnyChar => negb (c =? 10)
  | In negate ranges =>
      xorb negate (existsb (fun r => (fst r <=? c) && (c <=? snd r)) ranges)
  end.

Definition below (max : option N) (n : nat) : bool :=
  match max with
  | None => true
  | Some m => N.of_nat n <? m
  end.

(** How many characters at the front of [s] the repeated atom can take. *)
Fixpoint count (a : charset) (max : option N) (s : str) (n : nat) : nat :=
  match s with
  | [] => n
  | c :: s' => if member a c && below max n then count a max s' (S n) else n
  end.

(** A repeat takes as many characters as it can and gives them back one at a
    time, down to [min], while the rest of the pattern ([tail], told how many
    characters the repeat took) fails. *)
Fixpoint backtrack (tail : nat -> option nat) (min : N) (n : nat)
    : option nat :=
  if N.of_nat n <? min then None
  else
    match tail n with
    | Some e => Some e
    | None =>
        match n with
        | O => None
        | S n' => backtrack tail min n'
        end
    end.

(** The match of [p] at the front of [s], after [ptr] characters of the match:
    the length of the whole match.  At the end of the pattern an empty match
    fails when the engine must advance. *)
Fixpoint sre_match (p : pattern) (s : str) (ptr : nat) (must_advance : bool)
    : option nat :=
  match p with
  | [] => if must_advance && Nat.eqb ptr 0 then None else Some ptr
  | it :: tail =>
      backtrack
        (fun n => sre_match tail (skipn n s) (ptr + n) must_advance)
        (min_repeat it)
        (count (atom it) (max_repeat it) s 0%nat)
  end.

(** The search tries the positions from [i] on; only at the first one does
    [must_advance] apply. *)
Fixpoint scan (p : pattern) (s : str) (i : nat) (must_advance : bool)
    : option (nat * nat) :=
  match sre_match p s 0 must_advance with
  | Some n => Some (i, (i + n)%nat)
  | None =>
      match s with
      | [] => None
      | _ :: s' => scan p s' (S i) false
      end
  end.

Definition sre_search (p : pattern) (s : str) (i : nat) (must_advance : bool)
    : option (nat * nat) :=
  if (length s <? i)%nat then None else scan p (skipn i s) i must_advance.

(** Two characters that no atom of [p] tells apart. *)
Definition alike (p : pattern) (c d : char) : Prop :=
  forall it, List.In it p -> member (atom it) c = member (atom it) d.

(** *** The fragment as an engine *)

Local Open Scope nat_scope.

Lemma count_bounds (a : charset) (max : option N) (s : str) (n : nat) :
  n <= count a max s n <= n + length s.
Proof.
  revert n. induction s as [|c s IH]; intros n; simpl.
  - lia.
  - destruct (member a c && below max n); [specialize (IH (S n)) |]; lia.
Qed.

Lemma backtrack_some (tail : nat -> option nat) (min : N) (n e : nat) :
  backtrack tail min n = Some e -> exists j, j <= n /\ tail j = Some e.
Proof.
  induction n as [|n IH]; cbn [backtrack].
  - destruct (N.of_nat 0 <? min)%N; [discriminate |].
    destruct (tail 0) eqn:Ht; [| discriminate].
    intros [= <-]. exists 0. auto.
  - destruct (N.of_nat (S n) <? min)%N; [discriminate |].
    destruct (tail (S n)) eqn:Ht.
    + intros [= <-]. exists (S n). auto.
    + intros H. destruct (IH H) as (j & Hj & Hk). exists j. auto.
Qed.

Lemma sre_match_bounds (p : pattern) (s : str) (ptr : nat) (adv : bool)
    (e : nat) :
  sre_match p s ptr adv = Some e ->
  ptr <= e /\ e <= ptr + length s /\ (adv = true -> 0 < e).
Proof.
  revert s ptr. induction p as [|it tail IH]; intros s ptr; simpl.
  - destruct adv, ptr; simpl; try discriminate; intros [= <-];
      repeat split; try lia; discriminate.
  - intros H. apply backtrack_some in H. destruct H as (j & Hj & Hm).
    apply IH in Hm. rewrite length_skipn in Hm.
    pose proof (count_bounds (atom it) (max_repeat it) s 0) as Hc.
    destruct Hm as (H1 & H2 & H3). repeat split; try assumption; lia.
Qed.

Lemma scan_bounds (p : pattern) (s : str) (i : nat) (adv : bool) (b e : nat) :
  scan p s i adv = Some (b, e) ->
  i <= b /\ b <= e /\ e <= i + length s /\ (adv = true -> i < e).
Proof.
  revert i adv. induction s as [|c s IH]; intros i adv; simpl.
  - destruct (sre_match p [] 0 adv) eqn:Hm; [| discriminate].
    intros [= <- <-]. apply sre_match_bounds in Hm. simpl in Hm.
    destruct Hm as (H1 & H2 & H3).
    repeat split; try lia. intros Ha. specialize (H3 Ha). lia.
  - destruct (sre_match p (c :: s) 0 adv) eqn:Hm.
    + intros [= <- <-]. apply sre_match_bounds in Hm. simpl in Hm.
      destruct Hm as (H1 & H2 & H3).
      repeat split; try lia. intros Ha. specialize (H3 Ha). lia.
    + intros H. apply IH in H. destruct H as (H1 & H2 & H3 & _).
      repeat split; try lia.
Qed.

Lemma sre_search_bounds (p : pattern) (s : str) (i : nat) (adv : bool)
    (b e : nat) :
  sre_search p s i adv = Some (b, e) -> i <= b /\ b <= e /\ e <= length s.
Proof.
  unfold sre_search. destruct (Nat.ltb_spec (length s) i) as [Hi|Hi];
    [discriminate |].
  intros H. apply scan_bounds in H. rewrite length_skipn in H.
  destruct H as (H1 & H2 & H3 & _). repeat split; lia.
Qed.

Lemma sre_search_advance (p : pattern) (s : str) (i b e : nat) :
  sre_search p s i true = Some (b, e) -> i < e.
Proof.
  unfold sre_search. destruct (Nat.ltb_spec (length s) i) as [Hi|Hi];
    [discriminate |].
  intros H. apply scan_bounds in H. intuition.
Qed.

Definition engine : Engine := {|
  Pattern := pattern;
  compile := parse;
  search := sre_search;
  search_bounds := sre_search_bounds;
  search_advance := sre_search_advance
|}.

End Sre.

(** ** A concrete setting for runs

    A detector and codec that know ASCII only, a disk with one input file,
    and a random generator.  The detector stands for [chardet.detect] on the
    inputs of the runs below only: for bytes that are all ASCII [chardet]
    answers ['ascii']; for no bytes at all [chardet] 5 answers [None], and
    a later version may name an encoding.  The theorems are stated over any
    [Codecs]. *)

Definition is_ascii (c : N) : bool := (c <? 128)%N.

Definition ascii_codecs : Codecs := {|
  detect := fun raw_data =>
    match raw_data with
    | [] => None
    | _ =>
        if forallb (fun b => is_ascii (Byte.to_N b)) raw_data
        then Some "ascii"%string else None
    end;
  decode := fun enc raw_data =>
    if String.eqb enc "ascii" then
      if forallb (fun b => is_ascii (Byte.to_N b)) raw_data
      then Decoded (map Byte.to_N raw_data) else UnicodeDecodeError
    else LookupError;
  encode := fun enc text =>
    if String.eqb enc "ascii" && forallb is_ascii text
    then Some (map (fun c => match Byte.of_N c with
                             | Some b => b
                             | None => x00
                             end) text)
    else None
|}.

Definition empty_disk : FileSystem := {|
  nodes := fun _ => None;
  read_refused := fun _ => false;
  write_refused := fun _ => false;
  room := fun _ => None
|}.

(** A disk that holds [data] under [p] and nothing else. *)
Definition disk_with (p : path) (data : string) : FileSystem :=
  store empty_disk p (list_byte_of_string data).

(** The same disk when the device under [p] takes no more than [n] bytes. *)
Definition short_of_room (fs : FileSystem) (p : path) (n : nat) : FileSystem :=
  {| nodes := nodes fs;
     read_refused := read_refused fs;
     write_refused := write_refused fs;
     room := fun q => if String.eqb q p then Some n else room fs q |}.

Definition fresh_world (fs : FileSystem) : World :=
  {| random := {| draws := fun i => 7 * i + 3; cursor := 0 |};
     records := [];
     disk := fs |}.

(** The characters of the masking alphabet, by code point. *)
Definition alphanumeric (c : char) : Prop :=
  (65 <= c <= 90)%N \/ (48 <= c <= 57)%N.

(** ** main

    [main] works on the namespace that [parser.parse_args()] returns; the
    parsing of the command line itself is [argparse]'s and is not modelled.
    The process adds to the world the threshold of the root logger
    ([logging.basicConfig(level=logging.INFO)] at import) and the records
    that [main] itself hands to [logging], kept apart from those of the
    functions it calls. *)

Record Namespace := {
  input_file : path;
  output_file : path;
  patterns : list str;
  debug : bool
}.

Inductive announcement :=
| DebugModeEnabled
| InputFileDoesNotExist (file : path)
| SerialNumberMaskingFailed.

Record Process := {
  world : World;
  root_level : level;
  announced : list (level * announcement)
}.

(** [os.path.exists(path)] *)
Definition os_path_exists (fs : FileSystem) (p : path) : bool :=
  match nodes fs p with
  | Some _ => true
  | None => false
  end.

Definition announce (l : level) (a : announcement) (ps : Process) : Process :=
  {| world := world ps;
     root_level := root_level ps;
     announced := announced ps ++ [(l, a)] |}.

Definition with_world (ps : Process) (w : World) : Process :=
  {| world := w; root_level := root_level ps; announced := announced ps |}.

(** [logging.getLogger().setLevel(level)] *)
Definition setLevel (l : level) (ps : Process) : Process :=
  {| world := world ps; root_level := l; announced := announced ps |}.

Section Main.

Variable E : Engine.
Variable C : Codecs.

Definition main (args : Namespace) (ps : Process) : result unit * Process :=
  let ps :=
    if debug args
    then announce DEBUG DebugModeEnabled (setLevel DEBUG ps)
    else ps in
  let input_file := input_file args in
  let output_file := output_file args in
  let serial_patterns := patterns args in
  if negb (os_path_exists (disk (world ps)) input_file) then
    (Return tt, announce ERROR (InputFileDoesNotExist input_file) ps)
  else
    let (r, w) :=
      process_file E C input_file output_file serial_patterns (world ps) in
    match r with
    | Raise e => (Raise e, with_world ps w)
    | Return true => (Return tt, with_world ps w)
    | Return false =>
        (Return tt, announce ERROR SerialNumberMaskingFailed (with_world ps w))
    end.

End Main.

(** The state of a process when [main] is called. *)
Definition at_start (w : World) : Process :=
  {| world := w; root_level := INFO; announced := [] |}.

(** [logging] lets a record through when its level is not below the
    threshold. *)
Definition severity (l : level) : nat :=
  match l with
  | DEBUG => 10
  | INFO => 20
  | ERROR => 40
  end.

Definition shown (threshold : level) (r : level * message) : bool :=
  severity threshold <=? severity (fst r).

(** The level at which [main.py] logs each message. *)
Definition level_of (m : message) : level :=
  match m with
  | Masking _ _ => DEBUG
  | SuccessfullyProcessed _ _ => INFO
  | _ => ERROR
  end.

(** The device takes [n] bytes for the path [p]. *)
Definition takes (fs : FileSystem) (p : path) (n : nat) : bool :=
  match room fs p with
  | None => true
  | Some k => n <=? k
  end.

(** [open(p, 'w')] succeeds. *)
Definition writable (fs : FileSystem) (p : path) : bool :=
  match nodes fs p with
  | Some Directory => false
  | _ => negb (write_refused fs p)
  end.

(** The spans that the substitution loop replaces, in order: those that
    [re.finditer(pattern, s)] reports.  The loop of [subx], without the
    replacement; the same fuel bounds it. *)
Section Finditer.

Variable E : Engine.

Fixpoint matches (fuel : nat) (p : Pattern E) (s : str) (i : nat)
    (must_advance : bool) : list (nat * nat) :=
  match fuel with
  | O => []
  | S fuel' =>
      match search E p s i must_advance with
      | None => []
      | Some (b, e) => (b, e) :: matches fuel' p s e (Nat.eqb e b)
      end
  end.

Definition finditer (p : Pattern E) (s : str) : list (nat * nat) :=
  matches (2 + 2 * length s) p s 0 false.

End Finditer.

(** Position [k] lies in one of the spans. *)
Definition inside (k : nat) (spans : list (nat * nat)) : bool :=
  existsb (fun span => (fst span <=? k) && (k <? snd span)) spans.

(** One character of a masked text against the character it comes from. *)
Definition kept_or_masked (c d : char) : Prop := d = c \/ alphanumeric d.

(** * Properties *)

(** ** Slices *)

Lemma slice_length (s : str) (i j : nat) :
  i <= j -> j <= length s -> length (slice s i j) = j - i.
Proof.
  intros Hij Hj. unfold slice.
  rewrite length_firstn, length_skipn. lia.
Qed.

Lemma slice_all (s : str) : slice s 0 (length s) = s.
Proof.
  unfold slice. rewrite Nat.sub_0_r. simpl. apply firstn_all.
Qed.

Lemma slice_empty (s : str) (i : nat) : slice s i i = [].
Proof.
  unfold slice. rewrite Nat.sub_diag. reflexivity.
Qed.

Lemma firstn_plus (A : Type) (a b : nat) (l : list A) :
  firstn (a + b) l = firstn a l ++ firstn b (skipn a l).
Proof.
  revert l. induction a as [|a IH]; intros l; simpl.
  - reflexivity.
  - destruct l as [|x l]; simpl.
    + now rewrite firstn_nil.
    + now rewrite IH.
Qed.

Lemma slice_join (s : str) (i j k : nat) :
  i <= j -> j <= k -> slice s i j ++ slice s j k = slice s i k.
Proof.
  intros Hij Hjk. unfold slice.
  replace (k - i) with ((j - i) + (k - j)) by lia.
  rewrite firstn_plus, skipn_skipn.
  replace (j - i + i) with j by lia. reflexivity.
Qed.

(** ** The random string *)

Lemma characters_alphanumeric :
  Forall alphanumeric (ascii_uppercase ++ digits).
Proof.
  unfold alphanumeric.
  repeat (constructor; [vm_compute; intuition discriminate |]).
  constructor.
Qed.

Lemma join_choices_length (characters : str) (n : nat) (w : World) :
  length (fst (join_choices characters n w)) = n.
Proof.
  revert w. induction n as [|n IH]; intros w; simpl.
  - reflexivity.
  - unfold bind, choice, randbelow, ret; simpl.
    match goal with |- context [join_choices characters n ?w1] =>
      specialize (IH w1); destruct (join_choices characters n w1) as [cs w']
    end.
    simpl in *. now f_equal.
Qed.

Lemma join_choices_from (characters : str) (n : nat) (w : World) :
  characters <> [] ->
  Forall (fun c => In c characters) (fst (join_choices characters n w)).
Proof.
  intros Hne. revert w. induction n as [|n IH]; intros w; simpl.
  - constructor.
  - unfold bind, choice, randbelow, ret; simpl.
    match goal with |- context [join_choices characters n ?w1] =>
      specialize (IH w1); destruct (join_choices characters n w1) as [cs w']
    end.
    simpl in *. constructor; [| exact IH].
    apply nth_In. apply Nat.mod_upper_bound.
    destruct characters; [congruence | simpl; lia].
Qed.

(** What a run of [join_choices] leaves behind: [n] draws made, nothing else
    touched. *)
Lemma join_choices_world (characters : str) (n : nat) (w : World) :
  let w' := snd (join_choices characters n w) in
  records w' = records w /\ disk w' = disk w /\
  draws (random w') = draws (random w) /\
  cursor (random w') = cursor (random w) + n.
Proof.
  revert w. induction n as [|n IH]; intros w; simpl.
  - repeat split; lia.
  - unfold bind, choice, randbelow, ret; simpl.
    match goal with |- context [join_choices characters n ?w1] =>
      specialize (IH w1); destruct (join_choices characters n w1) as [cs w']
    end.
    simpl in *. destruct IH as (Hr & Hd & Hf & Hc).
    repeat split; try assumption. lia.
Qed.

(** C1.  The string that [mask_serial_number] returns for a match is exactly
    as long as the matched text [match.group(0)]. *)
Theorem mask_serial_number_length (m : Match) (w : World) :
  len (fst (mask_serial_number m w)) = len (group0 m).
Proof.
  unfold mask_serial_number, generate_random_string, bind, logging_debug,
    logging_log, ret, len.
  destruct (join_choices _ _ w) as [masked w'] eqn:Hj. simpl.
  f_equal.
  pose proof (join_choices_length (ascii_uppercase ++ digits)
                (Z.to_nat (Z.of_nat (length (group0 m)))) w) as Hl.
  rewrite Hj in Hl. simpl in Hl. rewrite Hl. apply Nat2Z.id.
Qed.

Lemma random_string_alphanumeric (length : Z) (w : World) :
  Forall alphanumeric (fst (generate_random_string length w)).
Proof.
  unfold generate_random_string.
  pose proof (join_choices_from (Z.to_nat length) w
                (characters := ascii_uppercase ++ digits)) as H.
  assert (Hne : ascii_uppercase ++ digits <> []) by discriminate.
  specialize (H Hne).
  rewrite Forall_forall in *. intros c Hc.
  pose proof characters_alphanumeric as Ha.
  rewrite Forall_forall in Ha. auto.
Qed.

(** C2.  Whatever the length asked for and whatever the random generator
    delivers, every character of [generate_random_string(length)] is one of
    [A]-[Z] (code points 65 to 90) or [0]-[9] (48 to 57), and the alphabet it
    draws from has 36 distinct characters. *)
Theorem generate_random_string_alphabet (length : Z) (w : World) :
  Forall alphanumeric (fst (generate_random_string length w)) /\
  List.length (ascii_uppercase ++ digits) = 36 /\
  NoDup (ascii_uppercase ++ digits).
Proof.
  split; [| split].
  - apply random_string_alphanumeric.
  - reflexivity.
  - repeat (constructor; [vm_compute; intuition discriminate |]).
    constructor.
Qed.

(** ** The substitution loop *)

Lemma mask_serial_number_length_nat (m : Match) (w : World) :
  length (fst (mask_serial_number m w)) = length (group0 m).
Proof.
  unfold mask_serial_number, generate_random_string, bind, logging_debug,
    logging_log, ret, len.
  pose proof (join_choices_length (ascii_uppercase ++ digits)
                (Z.to_nat (Z.of_nat (length (group0 m)))) w) as Hl.
  destruct (join_choices _ _ w) as [masked w']. simpl in *.
  rewrite Hl. apply Nat2Z.id.
Qed.

Lemma mask_serial_number_alphanumeric (m : Match) (w : World) :
  Forall alphanumeric (fst (mask_serial_number m w)).
Proof.
  pose proof (random_string_alphanumeric (len (group0 m)) w) as H.
  unfold mask_serial_number, bind, logging_debug, logging_log, ret.
  now destruct (generate_random_string (len (group0 m)) w).
Qed.

Lemma mask_serial_number_disk (m : Match) (w : World) :
  disk (snd (mask_serial_number m w)) = disk w.
Proof.
  unfold mask_serial_number, generate_random_string, bind, logging_debug,
    logging_log, ret.
  pose proof (join_choices_world (ascii_uppercase ++ digits)
                (Z.to_nat (len (group0 m))) w) as Hw.
  destruct (join_choices _ _ w) as [masked w']. simpl in *. tauto.
Qed.

Section Loop.

Variable E : Engine.
Variable p : Pattern E.
Variable s : str.

Lemma remaining_decreases (i : nat) (adv : bool) (b e : nat) :
  search E p s i adv = Some (b, e) ->
  remaining s e (Nat.eqb e b) < remaining s i adv.
Proof.
  intros H. pose proof (search_bounds E p s i adv H) as (Hib & Hbe & Hes).
  unfold remaining.
  destruct (Nat.eqb_spec e b) as [Heq|Hne].
  - destruct adv.
    + apply search_advance in H. lia.
    + lia.
  - destruct adv; lia.
Qed.

(** With more fuel than iterations remain, [subx] computes the loop. *)
Lemma subx_runs_the_loop (repl : Match -> M str) (fuel i : nat) (adv : bool)
    (w : World) :
  remaining s i adv < fuel ->
  sub_loop E p repl s i adv w
    (fst (subx E fuel p repl s i adv w)) (snd (subx E fuel p repl s i adv w)).
Proof.
  revert i adv w. induction fuel as [|fuel IH]; intros i adv w Hf; [lia |].
  simpl. destruct (search E p s i adv) as [[b e]|] eqn:Hs.
  - unfold bind, ret.
    destruct (repl _ w) as [item w1] eqn:Hr.
    pose proof (remaining_decreases i adv Hs) as Hd.
    specialize (IH e (Nat.eqb e b) w1 ltac:(lia)).
    destruct (subx E fuel p repl s e (Nat.eqb e b) w1) as [rest w2].
    simpl in *. eapply loop_match; eassumption.
  - apply loop_done. exact Hs.
Qed.

Lemma re_sub_runs_the_loop (repl : Match -> M str) (w : World) :
  sub_loop E p repl s 0 false w
    (fst (re_sub E p repl s w)) (snd (re_sub E p repl s w)).
Proof.
  apply subx_runs_the_loop. unfold remaining. lia.
Qed.

Lemma sub_loop_length (i : nat) (adv : bool) (w w' : World) (out : str) :
  sub_loop E p mask_serial_number s i adv w out w' ->
  i <= length s -> length out = length s - i.
Proof.
  induction 1 as [i adv w Hs | i adv w b e item w1 rest w2 Hs Hr _ IH];
    intros Hi.
  - apply slice_length; lia.
  - pose proof (search_bounds E p s i adv Hs) as (Hib & Hbe & Hes).
    rewrite !length_app, IH by lia.
    rewrite slice_length by lia.
    pose proof (mask_serial_number_length_nat
                  {| m_string := s; m_start := b; m_end := e |} w) as Hm.
    rewrite Hr in Hm. simpl in Hm. rewrite Hm.
    unfold group0; simpl. rewrite slice_length by lia. lia.
Qed.

Lemma sub_loop_disk (i : nat) (adv : bool) (w w' : World) (out : str) :
  sub_loop E p mask_serial_number s i adv w out w' -> disk w' = disk w.
Proof.
  induction 1 as [i adv w Hs | i adv w b e item w1 rest w2 Hs Hr _ IH].
  - reflexivity.
  - rewrite IH.
    pose proof (mask_serial_number_disk
                  {| m_string := s; m_start := b; m_end := e |} w) as Hm.
    rewrite Hr in Hm. exact Hm.
Qed.

Lemma re_sub_length (w : World) :
  length (fst (re_sub E p mask_serial_number s w)) = length s.
Proof.
  pose proof (re_sub_runs_the_loop mask_serial_number w) as H.
  apply sub_loop_length in H; lia.
Qed.

Lemma re_sub_disk (w : World) :
  disk (snd (re_sub E p mask_serial_number s w)) = disk w.
Proof.
  pose proof (re_sub_runs_the_loop mask_serial_number w) as H.
  now apply sub_loop_disk in H.
Qed.

Lemma re_sub_no_match (repl : Match -> M str) (w : World) :
  search E p s 0 false = None -> re_sub E p repl s w = (s, w).
Proof.
  intros H. unfold re_sub. simpl. rewrite H. unfold ret.
  now rewrite slice_all.
Qed.

Lemma re_sub_one_match (repl : Match -> M str) (w : World) (b e : nat) :
  search E p s 0 false = Some (b, e) ->
  search E p s e (Nat.eqb e b) = None ->
  re_sub E p repl s w =
  (let (item, w') := repl {| m_string := s; m_start := b; m_end := e |} w in
   (slice s 0 b ++ item ++ slice s e (length s), w')).
Proof.
  intros H1 H2. unfold re_sub. simpl. rewrite H1. unfold bind, ret.
  destruct (repl _ w) as [item w']. rewrite H2. reflexivity.
Qed.

Lemma subx_match (repl : Match -> M str) (fuel i : nat) (adv : bool)
    (w : World) (b e : nat) :
  search E p s i adv = Some (b, e) ->
  fst (subx E (S fuel) p repl s i adv w)
  = slice s i b
    ++ fst (repl {| m_string := s; m_start := b; m_end := e |} w)
    ++ fst (subx E fuel p repl s e (Nat.eqb e b)
              (snd (repl {| m_string := s; m_start := b; m_end := e |} w))).
Proof.
  intros H. cbn [subx]. rewrite H. unfold bind, ret.
  destruct (repl _ w) as [item w1]. cbn [fst snd].
  now destruct (subx E fuel p repl s e (Nat.eqb e b) w1).
Qed.

Lemma re_sub_first_match (repl : Match -> M str) (w : World) (b e : nat) :
  search E p s 0 false = Some (b, e) ->
  exists rest,
    fst (re_sub E p repl s w)
    = slice s 0 b
      ++ fst (repl {| m_string := s; m_start := b; m_end := e |} w) ++ rest.
Proof.
  intros H. unfold re_sub.
  change (2 + 2 * length s) with (S (S (2 * length s))).
  rewrite (subx_match repl (S (2 * length s)) 0 false w H).
  eexists. reflexivity.
Qed.

End Loop.

(** ** The masking engine *)

Section MaskingFacts.

Variable E : Engine.

Lemma for_patterns_compiled (pattern : str) (rest : list str) (text : str)
    (w : World) (p : Pattern E) :
  compile E pattern = Compiled p ->
  for_patterns E (pattern :: rest) text w =
  for_patterns E rest (fst (re_sub E p mask_serial_number text w))
    (snd (re_sub E p mask_serial_number text w)).
Proof.
  intros Hc. simpl. rewrite Hc. unfold bind.
  now destruct (re_sub E p mask_serial_number text w).
Qed.

Lemma for_patterns_disk (serial_patterns : list str) (text : str) (w : World) :
  disk (snd (for_patterns E serial_patterns text w)) = disk w.
Proof.
  revert text w. induction serial_patterns as [|pattern rest IH]; intros text w.
  - reflexivity.
  - destruct (compile E pattern) as [p| |e] eqn:Hc.
    + erewrite for_patterns_compiled by exact Hc. rewrite IH. apply re_sub_disk.
    + simpl. rewrite Hc. reflexivity.
    + simpl. rewrite Hc. reflexivity.
Qed.

(** A pattern that [re.compile] rejects with [re.error], after patterns that
    compile, makes the whole call return [None]. *)
Lemma re_error_returns_None (good : list str) (bad : str) (rest : list str)
    (text : str) (w : World) :
  forallb (compiles E) good = true ->
  compile E bad = re_error ->
  fst (mask_serial_numbers_in_text E text (good ++ bad :: rest) w)
  = Return None.
Proof.
  unfold mask_serial_numbers_in_text.
  revert text w. induction good as [|pattern good IH]; intros text w Hg Hb.
  - simpl. rewrite Hb. reflexivity.
  - simpl in Hg. apply andb_true_iff in Hg. destruct Hg as [Hp Hg].
    unfold compiles in Hp.
    destruct (compile E pattern) as [p| |e] eqn:Hc; try discriminate.
    rewrite <- app_comm_cons. erewrite for_patterns_compiled by exact Hc.
    now apply IH.
Qed.

(** Whatever makes a pattern of the list fail to compile, no text comes
    back, masked in part or otherwise. *)
Lemma no_partial_masking (serial_patterns : list str) (text : str) (w : World)
    (out : str) :
  fst (mask_serial_numbers_in_text E text serial_patterns w)
  = Return (Some out) ->
  forallb (compiles E) serial_patterns = true.
Proof.
  unfold mask_serial_numbers_in_text.
  revert text w. induction serial_patterns as [|pattern rest IH];
    intros text w H.
  - reflexivity.
  - simpl. unfold compiles at 1.
    destruct (compile E pattern) as [p| |e] eqn:Hc.
    + erewrite for_patterns_compiled in H by exact Hc.
      simpl. now apply IH in H.
    + simpl in H. rewrite Hc in H. discriminate.
    + simpl in H. rewrite Hc in H. discriminate.
Qed.

Lemma firstn_exact (A : Type) (l1 l2 : list A) (n : nat) :
  length l1 = n -> firstn n (l1 ++ l2) = l1.
Proof.
  intros <-. rewrite firstn_app, firstn_all, Nat.sub_diag. simpl.
  apply app_nil_r.
Qed.

(** C4.  When all patterns compile, masking with [p1 :: ps] runs the global
    substitution of [p1] on the text, which gives a text [t1], and then masks
    [t1] (not the original text) with [ps], in the world that the first pass
    left.  The substitution of the next pattern [p2] searches [t1]: the first
    match it finds there, whether or not it lies in a token that [p1] put
    in, is replaced in its turn, by a fresh token for the matched span of
    [t1]. *)
Theorem patterns_apply_in_sequence (text : str) (p1 : str) (ps : list str)
    (w : World) :
  forallb (compiles E) (p1 :: ps) = true ->
  exists q1 t1 w1,
    compile E p1 = Compiled q1 /\
    re_sub E q1 mask_serial_number text w = (t1, w1) /\
    mask_serial_numbers_in_text E text [p1] w = (Return (Some t1), w1) /\
    mask_serial_numbers_in_text E text (p1 :: ps) w
    = mask_serial_numbers_in_text E t1 ps w1 /\
    forall p2 rest, ps = p2 :: rest ->
      exists q2 t2 w2,
        compile E p2 = Compiled q2 /\
        re_sub E q2 mask_serial_number t1 w1 = (t2, w2) /\
        mask_serial_numbers_in_text E text (p1 :: ps) w
        = mask_serial_numbers_in_text E t2 rest w2 /\
        forall b e, search E q2 t1 0 false = Some (b, e) ->
          firstn e t2
          = slice t1 0 b
            ++ fst (mask_serial_number
                      {| m_string := t1; m_start := b; m_end := e |} w1).
Proof.
  intros H. simpl in H. apply andb_true_iff in H. destruct H as [H1 Hps].
  unfold compiles in H1.
  destruct (compile E p1) as [q1| |e1] eqn:Hc1; try discriminate.
  unfold mask_serial_numbers_in_text.
  exists q1, (fst (re_sub E q1 mask_serial_number text w)),
         (snd (re_sub E q1 mask_serial_number text w)).
  split; [reflexivity |].
  split; [apply surjective_pairing |].
  split; [rewrite (@for_patterns_compiled p1 [] text w q1 Hc1); reflexivity |].
  split; [apply for_patterns_compiled; exact Hc1 |].
  intros p2 rest ->.
  simpl in Hps. apply andb_true_iff in Hps. destruct Hps as [H2 _].
  unfold compiles in H2.
  destruct (compile E p2) as [q2| |e2] eqn:Hc2; try discriminate.
  set (t1 := fst (re_sub E q1 mask_serial_number text w)).
  set (w1 := snd (re_sub E q1 mask_serial_number text w)).
  exists q2, (fst (re_sub E q2 mask_serial_number t1 w1)),
         (snd (re_sub E q2 mask_serial_number t1 w1)).
  split; [reflexivity |].
  split; [apply surjective_pairing |].
  split.
  - rewrite (@for_patterns_compiled p1 (p2 :: rest) text w q1 Hc1).
    fold t1 w1. apply for_patterns_compiled. exact Hc2.
  - intros b e Hs.
    pose proof (search_bounds E q2 t1 0 false Hs) as (_ & Hbe & Hes).
    pose proof (mask_serial_number_length_nat
                  {| m_string := t1; m_start := b; m_end := e |} w1) as Hl.
    destruct (re_sub_first_match E q2 t1 mask_serial_number w1 Hs)
      as (rest' & ->).
    rewrite app_assoc. apply firstn_exact.
    rewrite length_app, Hl. unfold group0. simpl.
    rewrite !slice_length by lia. lia.
Qed.

(** C6.  A text in which no pattern of the list finds a match, all patterns
    compiling, comes back unchanged; no random character is drawn and
    nothing is logged. *)
Theorem untouched_text_round_trips (text : str) (serial_patterns : list str)
    (w : World) :
  forallb (unmatched E text) serial_patterns = true ->
  mask_serial_numbers_in_text E text serial_patterns w
  = (Return (Some text), w).
Proof.
  unfold mask_serial_numbers_in_text.
  induction serial_patterns as [|pattern rest IH]; intros H.
  - reflexivity.
  - simpl in H. apply andb_true_iff in H. destruct H as [Hp Hr].
    unfold unmatched in Hp.
    destruct (compile E pattern) as [p| |e] eqn:Hc; try discriminate.
    destruct (search E p text 0 false) eqn:Hs; try discriminate.
    erewrite for_patterns_compiled by exact Hc.
    rewrite re_sub_no_match by exact Hs. simpl.
    now apply IH.
Qed.

(** C9.  Whenever masking returns a text, that text is exactly as long as
    the input text. *)
Theorem masking_preserves_length (text : str) (serial_patterns : list str)
    (w : World) (out : str) :
  fst (mask_serial_numbers_in_text E text serial_patterns w)
  = Return (Some out) ->
  len out = len text.
Proof.
  unfold mask_serial_numbers_in_text, len.
  revert text w. induction serial_patterns as [|pattern rest IH];
    intros text w H.
  - simpl in H. now inversion H.
  - destruct (compile E pattern) as [p| |e] eqn:Hc.
    + erewrite for_patterns_compiled in H by exact Hc.
      apply IH in H. rewrite H. f_equal. apply re_sub_length.
    + simpl in H. rewrite Hc in H. discriminate.
    + simpl in H. rewrite Hc in H. discriminate.
Qed.

End MaskingFacts.

(** ** The file pipeline *)

Section PipelineFacts.

Variable E : Engine.
Variable C : Codecs.

Lemma store_same (fs : FileSystem) (p : path) (data : bytes) :
  nodes (store fs p data) p = Some (File data).
Proof.
  simpl. now rewrite String.eqb_refl.
Qed.

Lemma store_other (fs : FileSystem) (p q : path) (data : bytes) :
  q <> p -> nodes (store fs p data) q = nodes fs q.
Proof.
  intros H. simpl. apply String.eqb_neq in H. now rewrite H.
Qed.

(** C8.  When the detector names no encoding for the bytes read,
    [process_file] returns [False]; it logs one error and does nothing
    else: the result does not depend on any decoder, no random character is
    drawn, the disk is as it was. *)
Theorem undetected_encoding_fails (input_file output_file : path)
    (serial_patterns : list str) (w : World) (raw_data : bytes) :
  read_file input_file w = (Opened raw_data, w) ->
  detect C raw_data = None ->
  process_file E C input_file output_file serial_patterns w
  = (Return false,
     {| random := random w;
        records := records w ++ [(ERROR, FailedToDetectEncoding input_file)];
        disk := disk w |}).
Proof.
  intros Hr Hd. unfold process_file, bind. rewrite Hr, Hd. reflexivity.
Qed.

Lemma process_file_success (input_file output_file : path)
    (serial_patterns : list str) (w : World) :
  fst (process_file E C input_file output_file serial_patterns w)
  = Return true ->
  exists raw_data enc text masked_text data,
    nodes (disk w) input_file = Some (File raw_data) /\
    detect C raw_data = Some enc /\
    decode C enc raw_data = Decoded text /\
    fst (mask_serial_numbers_in_text E text serial_patterns w)
    = Return (Some masked_text) /\
    encode C enc masked_text = Some data /\
    nodes (disk (snd (process_file E C input_file output_file
                        serial_patterns w))) output_file
    = Some (File data).
Proof.
  unfold process_file, bind, read_file.
  destruct (nodes (disk w) input_file) as [[raw_data|]|] eqn:Hn;
    try (simpl; discriminate).
  destruct (read_refused (disk w) input_file); try (simpl; discriminate).
  destruct (detect C raw_data) as [enc|] eqn:Hd; try (simpl; discriminate).
  destruct (decode C enc raw_data) as [text| |] eqn:Hdec;
    try (simpl; discriminate).
  pose proof (for_patterns_disk E serial_patterns text w) as Hdisk.
  unfold mask_serial_numbers_in_text.
  destruct (for_patterns E serial_patterns text w) as [[[masked_text|]|e] w1]
    eqn:Hm; try (simpl; discriminate).
  simpl in Hdisk.
  unfold open_w. rewrite Hdisk.
  destruct (nodes (disk w) output_file) as [[old|]|] eqn:Ho;
    try (simpl; discriminate);
    (destruct (write_refused (disk w) output_file);
       [simpl; discriminate |]);
    (destruct (encode C enc masked_text) as [data|] eqn:He;
       [| simpl; discriminate]);
    unfold write_bytes; simpl room;
    (destruct (room (disk w) output_file) as [n|];
       [destruct (n <? length data); [simpl; discriminate |] |]);
    intros _; exists raw_data, enc, text, masked_text, data;
    (repeat split; try assumption; try reflexivity;
     [ now rewrite Hm
     | simpl; now rewrite String.eqb_refl ]).
Qed.

Lemma process_file_early_failure (input_file output_file : path)
    (serial_patterns : list str) (w : World) :
  fails_before_writing E C input_file serial_patterns w ->
  fst (process_file E C input_file output_file serial_patterns w)
  <> Return true /\
  disk (snd (process_file E C input_file output_file serial_patterns w))
  = disk w.
Proof.
  intros H. unfold process_file, bind.
  destruct H as [Hn | Hr | raw Hr Hd | raw enc Hr Hd Hdec
                | raw enc text Hr Hd Hdec Hm].
  - unfold read_file. rewrite Hn. simpl. split; [discriminate | reflexivity].
  - unfold read_file in *. simpl in Hr.
    destruct (nodes (disk w) input_file) as [[raw|]|]; simpl;
      try (split; [discriminate | reflexivity]).
    destruct (read_refused (disk w) input_file); [| discriminate].
    simpl. split; [discriminate | reflexivity].
  - unfold read_file in *. simpl in Hr. rewrite Hr, Hd. simpl.
    split; [discriminate | reflexivity].
  - unfold read_file in *. simpl in Hr. rewrite Hr, Hd.
    destruct (decode C enc raw) as [text| |] eqn:Hx; simpl;
      try (split; [discriminate | reflexivity]).
    now destruct (Hdec text).
  - unfold read_file in *. simpl in Hr. rewrite Hr, Hd, Hdec.
    pose proof (for_patterns_disk E serial_patterns text w) as Hdisk.
    unfold mask_serial_numbers_in_text in *.
    destruct (for_patterns E serial_patterns text w) as [[[masked|]|e] w1];
      simpl in *.
    + now destruct (Hm masked).
    + split; [discriminate | assumption].
    + split; [discriminate | assumption].
Qed.

(** C5, amended.  [process_file] returns [True] only when the input was read,
    decoded and masked and the output path holds the whole masked text in
    the detected encoding; and when the run fails with NotFound, a read
    error, an undetected encoding, a decode error or a masking failure, it
    does not return [True] and the file system is exactly as it was. *)
Theorem process_file_outcomes (input_file output_file : path)
    (serial_patterns : list str) (w : World) :
  (fst (process_file E C input_file output_file serial_patterns w)
   = Return true ->
   exists raw_data enc text masked_text data,
     nodes (disk w) input_file = Some (File raw_data) /\
     detect C raw_data = Some enc /\
     decode C enc raw_data = Decoded text /\
     fst (mask_serial_numbers_in_text E text serial_patterns w)
     = Return (Some masked_text) /\
     encode C enc masked_text = Some data /\
     nodes (disk (snd (process_file E C input_file output_file
                         serial_patterns w))) output_file
     = Some (File data)) /\
  (fails_before_writing E C input_file serial_patterns w ->
   fst (process_file E C input_file output_file serial_patterns w)
   <> Return true /\
   disk (snd (process_file E C input_file output_file serial_patterns w))
   = disk w).
Proof.
  split.
  - apply process_file_success.
  - apply process_file_early_failure.
Qed.

End PipelineFacts.

(** ** Matches of length zero *)

Lemma mask_empty_span (s : str) (i : nat) (w : World) :
  fst (mask_serial_number {| m_string := s; m_start := i; m_end := i |} w)
  = [].
Proof.
  apply length_zero_iff_nil.
  rewrite mask_serial_number_length_nat. unfold group0. simpl.
  now rewrite slice_empty.
Qed.

Section EmptyMatches.

Variable E : Engine.

Lemma only_empty_matches_spec (p : Pattern E) (s : str) (i : nat)
    (adv : bool) (b e : nat) :
  only_empty_matches E p s = true ->
  i <= length s ->
  search E p s i adv = Some (b, e) -> b = e.
Proof.
  unfold only_empty_matches. rewrite forallb_forall.
  intros H Hi Hs. specialize (H i). rewrite in_seq in H.
  specialize (H ltac:(lia)). simpl in H.
  rewrite !andb_true_iff in H. destruct H as (Hf & Ht & _).
  destruct adv; [rewrite Hs in Ht | rewrite Hs in Hf];
    now apply Nat.eqb_eq.
Qed.

Lemma sub_loop_only_empty (p : Pattern E) (s : str) (i : nat) (adv : bool)
    (w w' : World) (out : str) :
  only_empty_matches E p s = true ->
  sub_loop E p mask_serial_number s i adv w out w' ->
  i <= length s -> out = slice s i (length s).
Proof.
  intros Hall.
  induction 1 as [i adv w Hs | i adv w b e item w1 rest w2 Hs Hr _ IH];
    intros Hi.
  - reflexivity.
  - pose proof (search_bounds E p s i adv Hs) as (Hib & Hbe & Hes).
    pose proof (@only_empty_matches_spec p s i adv b e Hall Hi Hs) as <-.
    rewrite IH by lia.
    pose proof (mask_empty_span s b w) as Hm. rewrite Hr in Hm.
    simpl in Hm. subst item. simpl. apply slice_join; lia.
Qed.

(** A pattern all of whose matches in the text are empty leaves the text as
    it is. *)
Lemma empty_matches_leave_text (pattern : str) (p : Pattern E) (text : str)
    (w : World) :
  compile E pattern = Compiled p ->
  only_empty_matches E p text = true ->
  fst (mask_serial_numbers_in_text E text [pattern] w) = Return (Some text).
Proof.
  intros Hc Hall. unfold mask_serial_numbers_in_text.
  erewrite for_patterns_compiled by exact Hc. simpl.
  pose proof (re_sub_runs_the_loop E p text mask_serial_number w) as Hl.
  eapply sub_loop_only_empty in Hl; [| exact Hall | lia].
  rewrite Hl, slice_all. reflexivity.
Qed.

(** C10.  [generate_random_string(0)] is the empty string.  When a pattern
    that compiles matches the empty span at [b], the replacement for that
    match is the empty string, and the output of the substitution loop is
    the text up to [b] followed at once by the output of the loop continued
    from [b]: no character is inserted there or deleted.  Masking with the
    pattern returns a text, as long as the input. *)
Theorem zero_length_match (pattern : str) (p : Pattern E) (text : str)
    (i : nat) (must_advance : bool) (b fuel : nat) (w : World) :
  compile E pattern = Compiled p ->
  search E p text i must_advance = Some (b, b) ->
  generate_random_string 0 w = ([], w) /\
  fst (mask_serial_number {| m_string := text; m_start := b; m_end := b |} w)
  = [] /\
  fst (subx E (S fuel) p mask_serial_number text i must_advance w)
  = slice text i b ++
    fst (subx E fuel p mask_serial_number text b true
           (snd (mask_serial_number
                   {| m_string := text; m_start := b; m_end := b |} w))) /\
  exists out,
    fst (mask_serial_numbers_in_text E text [pattern] w)
    = Return (Some out) /\
    len out = len text.
Proof.
  intros Hc Hs. split; [reflexivity |].
  split; [apply mask_empty_span |].
  split.
  - simpl. rewrite Hs. unfold bind, ret.
    pose proof (mask_empty_span text b w) as Hm.
    destruct (mask_serial_number _ w) as [item w1]. simpl in *. subst item.
    rewrite Nat.eqb_refl.
    now destruct (subx E fuel p mask_serial_number text b true w1).
  - unfold mask_serial_numbers_in_text.
    erewrite for_patterns_compiled by exact Hc. simpl.
    eexists. split; [reflexivity |].
    unfold len. f_equal. apply re_sub_length.
Qed.

End EmptyMatches.

(** ** The fragment engine: a match depends on set membership only *)

Module SreFacts.

Import Sre.

Lemma alike_tail (it : item) (p : pattern) (c d : char) :
  alike (it :: p) c d -> alike p c d.
Proof.
  intros H x Hx. apply H. now right.
Qed.

Lemma Forall2_skipn (A : Type) (R : A -> A -> Prop) (n : nat) (l l' : list A) :
  Forall2 R l l' -> Forall2 R (skipn n l) (skipn n l').
Proof.
  intros H. revert n. induction H as [|x y l l' Hxy H IH]; intros n.
  - rewrite !skipn_nil. constructor.
  - destruct n; simpl; [now constructor | apply IH].
Qed.

Lemma count_alike (a : charset) (max : option N) (s s' : str) (n : nat) :
  Forall2 (fun c d => member a c = member a d) s s' ->
  count a max s n = count a max s' n.
Proof.
  intros H. revert n. induction H as [|c d s s' Hcd H IH]; intros n; simpl.
  - reflexivity.
  - rewrite Hcd. destruct (member a d && below max n); [apply IH | reflexivity].
Qed.

Lemma backtrack_ext (t1 t2 : nat -> option nat) (min : N) (n : nat) :
  (forall j, j <= n -> t1 j = t2 j) ->
  backtrack t1 min n = backtrack t2 min n.
Proof.
  induction n as [|n IH]; intros H; cbn [backtrack].
  - now rewrite (H 0).
  - rewrite (H (S n)) by lia. rewrite IH; [reflexivity |].
    intros j Hj. apply H. lia.
Qed.

Lemma sre_match_alike (p : pattern) (s s' : str) (ptr : nat) (adv : bool) :
  Forall2 (alike p) s s' ->
  sre_match p s ptr adv = sre_match p s' ptr adv.
Proof.
  revert s s' ptr. induction p as [|it tail IH]; intros s s' ptr H.
  - reflexivity.
  - simpl.
    assert (Hc : count (atom it) (max_repeat it) s 0
                 = count (atom it) (max_repeat it) s' 0).
    { apply count_alike. eapply Forall2_impl; [| exact H].
      intros c d Hcd. apply Hcd. now left. }
    rewrite Hc. apply backtrack_ext. intros j _.
    apply IH. apply Forall2_skipn.
    eapply Forall2_impl; [| exact H].
    intros c d Hcd. eapply alike_tail. exact Hcd.
Qed.

Lemma scan_alike (p : pattern) (s s' : str) (i : nat) (adv : bool) :
  Forall2 (alike p) s s' -> scan p s i adv = scan p s' i adv.
Proof.
  intros H. revert i adv.
  induction H as [|c d s s' Hcd H IH]; intros i adv.
  - reflexivity.
  - cbn [scan].
    rewrite (@sre_match_alike p (c :: s) (d :: s') 0 adv)
      by now constructor.
    destruct (sre_match p (d :: s') 0 adv); [reflexivity | apply IH].
Qed.

Lemma sre_search_alike (p : pattern) (s s' : str) (i : nat) (adv : bool) :
  Forall2 (alike p) s s' -> sre_search p s i adv = sre_search p s' i adv.
Proof.
  intros H. unfold sre_search.
  rewrite (Forall2_length H).
  destruct (length s' <? i); [reflexivity |].
  apply scan_alike. now apply Forall2_skipn.
Qed.

Lemma alike_refl (p : pattern) (s : str) : Forall2 (alike p) s s.
Proof.
  induction s; constructor; [intros it _; reflexivity | assumption].
Qed.

End SreFacts.

(** ** Runs of the fragment engine *)

Ltac compile_pattern pat H :=
  let r := eval vm_compute in (Sre.parse pat) in
  match r with
  | Compiled ?q =>
      assert (H : compile Sre.engine pat = Compiled q)
        by (vm_compute; reflexivity)
  end.

(** The third default pattern cannot tell an alphanumeric character from
    [A]. *)
Lemma alphanumeric_alike (c : char) :
  alphanumeric c ->
  Sre.alike
    [{| Sre.atom := Sre.In false [(65, 90); (48, 57)]%N;
        Sre.min_repeat := 15; Sre.max_repeat := Some 20%N |}] c 65%N.
Proof.
  intros Hc it [<- | []]. simpl.
  unfold alphanumeric in Hc.
  destruct Hc as [[H1 H2] | [H1 H2]].
  - apply N.leb_le in H1, H2. rewrite H1, H2. reflexivity.
  - apply N.leb_le in H1, H2. rewrite H1, H2. simpl.
    now rewrite orb_true_r.
Qed.

(** C3, at the failing input.  [re.compile] rejects [A{4294967296}] with
    [OverflowError], which is not an [re.error]: masking with this pattern
    does not return [None], the exception escapes; it also escapes when a
    pattern that is an [re.error] follows in the list. *)
Theorem overflow_pattern_escapes (text : str) (w : World) :
  mask_serial_numbers_in_text Sre.engine text [py "A{4294967296}"] w
  = (Raise OverflowError, w) /\
  compile Sre.engine (py "[") = re_error /\
  mask_serial_numbers_in_text Sre.engine text [py "A{4294967296}"; py "["] w
  = (Raise OverflowError, w).
Proof.
  assert (H : compile Sre.engine (py "A{4294967296}") = raises OverflowError)
    by (vm_compute; reflexivity).
  unfold mask_serial_numbers_in_text. cbn [for_patterns]. rewrite H.
  repeat split.
Qed.

(** The same pattern makes [process_file] raise, with nothing written. *)
Lemma process_file_lets_overflow_escape :
  let w := fresh_world (disk_with "in.txt" "Device SN:AB12CD34EF shipped") in
  let run := process_file Sre.engine ascii_codecs "in.txt" "out.txt"
               [py "A{4294967296}"] w in
  fst run = Raise OverflowError /\ nodes (disk (snd run)) "out.txt" = None.
Proof.
  vm_compute. split; reflexivity.
Qed.

Lemma patterns_apply_in_sequence_witness :
  let text := py "SN:AB12CD34EF" in
  let p1 := py "SN:[A-Z0-9]{10}" in
  let p2 := py "[A-Z0-9]{13}" in
  let w := fresh_world empty_disk in
  forallb (compiles Sre.engine) [p1; p2] = true /\
  unmatched Sre.engine text p2 = true /\
  fst (mask_serial_numbers_in_text Sre.engine text [p1] w)
  = Return (Some (py "DKRY5CJQX4BIP")) /\
  fst (mask_serial_numbers_in_text Sre.engine text [p1; p2] w)
  = Return (Some (py "W3AHOV29GNU18")) /\
  exists q1 t1 w1,
    compile Sre.engine p1 = Compiled q1 /\
    re_sub Sre.engine q1 mask_serial_number text w = (t1, w1) /\
    mask_serial_numbers_in_text Sre.engine text [p1] w
    = (Return (Some t1), w1) /\
    mask_serial_numbers_in_text Sre.engine text [p1; p2] w
    = mask_serial_numbers_in_text Sre.engine t1 [p2] w1 /\
    forall p2' rest, [p2] = p2' :: rest ->
      exists q2 t2 w2,
        compile Sre.engine p2' = Compiled q2 /\
        re_sub Sre.engine q2 mask_serial_number t1 w1 = (t2, w2) /\
        mask_serial_numbers_in_text Sre.engine text [p1; p2] w
        = mask_serial_numbers_in_text Sre.engine t2 rest w2 /\
        forall b e, search Sre.engine q2 t1 0 false = Some (b, e) ->
          firstn e t2
          = slice t1 0 b
            ++ fst (mask_serial_number
                      {| m_string := t1; m_start := b; m_end := e |} w1).
Proof.
  intros text p1 p2 w.
  split; [vm_compute; reflexivity |].
  split; [vm_compute; reflexivity |].
  split; [vm_compute; reflexivity |].
  split; [vm_compute; reflexivity |].
  apply (@patterns_apply_in_sequence Sre.engine text p1 [p2] w).
  vm_compute; reflexivity.
Defined.

(** A later pattern masks again the token that an earlier pattern put in:
    [[A-Z0-9]{13}] finds nothing in the original text, and replaces the
    token that [SN:[A-Z0-9]{10}] produced. *)
Lemma later_pattern_masks_token_again :
  let text := py "SN:AB12CD34EF" in
  let w := fresh_world empty_disk in
  unmatched Sre.engine text (py "[A-Z0-9]{13}") = true /\
  fst (mask_serial_numbers_in_text Sre.engine text
         [py "SN:[A-Z0-9]{10}"] w)
  = Return (Some (py "DKRY5CJQX4BIP")) /\
  fst (mask_serial_numbers_in_text Sre.engine text
         [py "SN:[A-Z0-9]{10}"; py "[A-Z0-9]{13}"] w)
  = Return (Some (py "W3AHOV29GNU18")).
Proof.
  vm_compute. repeat split.
Qed.

Lemma untouched_text_round_trips_witness :
  forallb (unmatched Sre.engine (py "hello, world")) DEFAULT_SERIAL_PATTERNS
  = true /\
  mask_serial_numbers_in_text Sre.engine (py "hello, world")
    DEFAULT_SERIAL_PATTERNS (fresh_world empty_disk)
  = (Return (Some (py "hello, world")), fresh_world empty_disk).
Proof.
  split.
  - vm_compute; reflexivity.
  - apply (untouched_text_round_trips Sre.engine (py "hello, world")
             DEFAULT_SERIAL_PATTERNS (fresh_world empty_disk)).
    vm_compute; reflexivity.
Defined.

Lemma masking_preserves_length_witness :
  fst (mask_serial_numbers_in_text Sre.engine
         (py "Device SN:AB12CD34EF shipped") DEFAULT_SERIAL_PATTERNS
         (fresh_world empty_disk))
  = Return (Some (py "Device DKRY5CJQX4BIP shipped")) /\
  len (py "Device DKRY5CJQX4BIP shipped")
  = len (py "Device SN:AB12CD34EF shipped").
Proof.
  split.
  - vm_compute; reflexivity.
  - apply (masking_preserves_length Sre.engine
             (py "Device SN:AB12CD34EF shipped") DEFAULT_SERIAL_PATTERNS
             (fresh_world empty_disk)).
    vm_compute; reflexivity.
Defined.

(** C7, as stated, at one run: the output is not ["Device "], a token of 12
    characters and [" shipped"].  The match [SN:AB12CD34EF] has 13
    characters. *)
Lemma token_is_not_12_characters :
  ~ exists token,
      fst (mask_serial_numbers_in_text Sre.engine
             (py "Device SN:AB12CD34EF shipped") DEFAULT_SERIAL_PATTERNS
             (fresh_world empty_disk))
      = Return (Some (py "Device " ++ token ++ py " shipped")) /\
      length token = 12 /\
      Forall alphanumeric token.
Proof.
  intros (token & H & Hl & _).
  assert (Hc : fst (mask_serial_numbers_in_text Sre.engine
                      (py "Device SN:AB12CD34EF shipped")
                      DEFAULT_SERIAL_PATTERNS (fresh_world empty_disk))
               = Return (Some (py "Device DKRY5CJQX4BIP shipped")))
    by (vm_compute; reflexivity).
  rewrite Hc in H. injection H as H.
  apply (f_equal (@length char)) in H.
  rewrite !length_app, Hl in H. vm_compute in H. lia.
Qed.

(** C7, amended.  For the input ["Device SN:AB12CD34EF shipped"] and the
    three default patterns, whatever the random generator delivers, the
    output is ["Device "], then a token of 13 characters over [A]-[Z],
    [0]-[9], then [" shipped"]: the whole match of [SN:[A-Z0-9]{10}], its
    [SN:] included, is replaced by a token of its length. *)
Theorem default_patterns_scenario (w : World) :
  exists token,
    fst (mask_serial_numbers_in_text Sre.engine
           (py "Device SN:AB12CD34EF shipped") DEFAULT_SERIAL_PATTERNS w)
    = Return (Some (py "Device " ++ token ++ py " shipped")) /\
    length token = 13 /\
    Forall alphanumeric token.
Proof.
  unfold mask_serial_numbers_in_text, DEFAULT_SERIAL_PATTERNS.
  cbv beta zeta.
  set (text := py "Device SN:AB12CD34EF shipped").
  match goal with |- context [for_patterns _ (?p1 :: ?p2 :: ?p3 :: nil)] =>
    compile_pattern p1 H1; compile_pattern p2 H2; compile_pattern p3 H3
  end.
  set (m := {| m_string := text; m_start := 7; m_end := 20 |}).
  exists (fst (mask_serial_number m w)).
  split; [| split].
  - rewrite (for_patterns_compiled Sre.engine _ _ text w H1).
    rewrite re_sub_no_match by (vm_compute; reflexivity).
    cbn [fst snd].
    rewrite (for_patterns_compiled Sre.engine _ _ text w H2).
    rewrite (@re_sub_one_match Sre.engine _ text mask_serial_number w 7 20)
      by (vm_compute; reflexivity).
    fold m.
    pose proof (mask_serial_number_length_nat m w) as Hl.
    pose proof (mask_serial_number_alphanumeric m w) as Ha.
    destruct (mask_serial_number m w) as [token w1]. cbn [fst snd] in *.
    change (length (group0 m)) with 13 in Hl.
    change (slice text 0 7) with (py "Device ").
    change (slice text 20 (length text)) with (py " shipped").
    rewrite (for_patterns_compiled Sre.engine _ _ _ w1 H3).
    rewrite re_sub_no_match; [reflexivity |].
    change (search Sre.engine) with Sre.sre_search.
    rewrite (@SreFacts.sre_search_alike _ _
               (py "Device " ++ List.repeat 65%N 13 ++ py " shipped")).
    + vm_compute. reflexivity.
    + apply Forall2_app; [apply SreFacts.alike_refl |].
      apply Forall2_app; [| apply SreFacts.alike_refl].
      do 14 (destruct token as [|? token]; try discriminate).
      repeat match goal with H : Forall _ (_ :: _) |- _ =>
        inversion H; subst; clear H end.
      repeat (constructor; [now apply alphanumeric_alike |]). constructor.
  - rewrite mask_serial_number_length_nat. reflexivity.
  - apply mask_serial_number_alphanumeric.
Qed.

Lemma zero_length_match_witness :
  let p := [{| Sre.atom := Sre.Literal 88%N;
               Sre.min_repeat := 0%N; Sre.max_repeat := None |}] in
  let text := py "ab" in
  let w := fresh_world empty_disk in
  compile Sre.engine (py "X*") = Compiled p /\
  search Sre.engine p text 0 false = Some (0, 0) /\
  generate_random_string 0 w = ([], w) /\
  fst (mask_serial_number {| m_string := text; m_start := 0; m_end := 0 |} w)
  = [] /\
  fst (subx Sre.engine 6 p mask_serial_number text 0 false w)
  = slice text 0 0 ++
    fst (subx Sre.engine 5 p mask_serial_number text 0 true
           (snd (mask_serial_number
                   {| m_string := text; m_start := 0; m_end := 0 |} w))) /\
  exists out,
    fst (mask_serial_numbers_in_text Sre.engine text [py "X*"] w)
    = Return (Some out) /\
    len out = len text.
Proof.
  intros p text w.
  split; [vm_compute; reflexivity |].
  split; [vm_compute; reflexivity |].
  apply (@zero_length_match Sre.engine (py "X*") p text 0 false 0 5 w).
  - vm_compute; reflexivity.
  - vm_compute; reflexivity.
Defined.

(** A pattern that matches only empty spans of a text returns the text. *)
Lemma empty_matches_leave_text_example :
  fst (mask_serial_numbers_in_text Sre.engine (py "ab") [py "X*"]
         (fresh_world empty_disk))
  = Return (Some (py "ab")).
Proof.
  apply (@empty_matches_leave_text Sre.engine (py "X*")
           [{| Sre.atom := Sre.Literal 88%N;
               Sre.min_repeat := 0%N; Sre.max_repeat := None |}]);
    vm_compute; reflexivity.
Qed.

(** ** Runs of the file pipeline *)

Lemma undetected_encoding_fails_witness :
  let w := fresh_world (disk_with "empty.txt" "") in
  read_file "empty.txt" w = (Opened [], w) /\
  detect ascii_codecs [] = None /\
  process_file Sre.engine ascii_codecs "empty.txt" "out.txt"
    DEFAULT_SERIAL_PATTERNS w
  = (Return false,
     {| random := random w;
        records := records w ++ [(ERROR, FailedToDetectEncoding "empty.txt")];
        disk := disk w |}).
Proof.
  intros w.
  split; [reflexivity |].
  split; [reflexivity |].
  apply (@undetected_encoding_fails Sre.engine ascii_codecs
           "empty.txt" "out.txt" DEFAULT_SERIAL_PATTERNS w []);
    reflexivity.
Defined.

(** C5, as stated, at one run: the device takes 10 bytes for [out.txt] and
    then fails; [process_file] returns [False], and [out.txt], which did not
    exist, now holds the first 10 bytes of the masked text. *)
Lemma write_failure_leaves_partial_output :
  ~ all_or_nothing Sre.engine ascii_codecs "in.txt" "out.txt"
      DEFAULT_SERIAL_PATTERNS
      (fresh_world
         (short_of_room
            (disk_with "in.txt" "Device SN:AB12CD34EF shipped")
            "out.txt" 10)).
Proof.
  unfold all_or_nothing.
  match goal with |- ~ (let (_, _) := ?run in _) =>
    assert (Hr : fst run = Return false) by (vm_compute; reflexivity);
    assert (Hn : nodes (disk (snd run)) "out.txt"
                 = Some (File (list_byte_of_string "Device DKR")))
      by (vm_compute; reflexivity);
    destruct run as [r w']
  end.
  cbn [fst snd] in *.
  intros [[H _] | [_ H]].
  - rewrite Hr in H. discriminate.
  - rewrite Hn in H. vm_compute in H. discriminate.
Qed.

Lemma process_file_outcomes_witness :
  let w := fresh_world empty_disk in
  let run := process_file Sre.engine ascii_codecs "missing.txt" "out.txt"
               DEFAULT_SERIAL_PATTERNS w in
  fails_before_writing Sre.engine ascii_codecs "missing.txt"
    DEFAULT_SERIAL_PATTERNS w /\
  fst run <> Return true /\
  disk (snd run) = disk w.
Proof.
  intros w run.
  assert (H : fails_before_writing Sre.engine ascii_codecs "missing.txt"
                DEFAULT_SERIAL_PATTERNS w)
    by (apply NotFound; reflexivity).
  split; [exact H |].
  exact (proj2 (process_file_outcomes Sre.engine ascii_codecs
                  "missing.txt" "out.txt" DEFAULT_SERIAL_PATTERNS w) H).
Defined.

(** A run that succeeds: the output holds the whole masked text. *)
Lemma process_file_success_example :
  let w := fresh_world (disk_with "in.txt" "Device SN:AB12CD34EF shipped") in
  let run := process_file Sre.engine ascii_codecs "in.txt" "out.txt"
               DEFAULT_SERIAL_PATTERNS w in
  fst run = Return true /\
  nodes (disk (snd run)) "out.txt"
  = Some (File (list_byte_of_string "Device DKRY5CJQX4BIP shipped")).
Proof.
  vm_compute. split; reflexivity.
Qed.

(** * Further properties *)

(** ** generate_random_string *)

(** X1.  The string has [length] characters, none for a negative [length]
    ([range] of a negative number is empty). *)
Theorem generate_random_string_len (length : Z) (w : World) :
  len (fst (generate_random_string length w)) = Z.max 0 length.
Proof.
  unfold generate_random_string, len.
  rewrite join_choices_length. lia.
Qed.

(** X2.  A call draws once per character and has no other effect: the log,
    the disk and the sequence the generator will deliver are as before. *)
Theorem generate_random_string_draws (length : Z) (w : World) :
  Z.of_nat (cursor (random (snd (generate_random_string length w))))
  = (Z.of_nat (cursor (random w)) + Z.max 0 length)%Z /\
  draws (random (snd (generate_random_string length w))) = draws (random w) /\
  records (snd (generate_random_string length w)) = records w /\
  disk (snd (generate_random_string length w)) = disk w.
Proof.
  unfold generate_random_string.
  pose proof (join_choices_world (ascii_uppercase ++ digits)
                (Z.to_nat length) w) as (Hr & Hd & Hf & Hc).
  rewrite Hc. repeat split; try assumption. lia.
Qed.

Lemma alphanumeric_in_characters (c : char) :
  alphanumeric c -> In c (ascii_uppercase ++ digits).
Proof.
  intros H.
  change (ascii_uppercase ++ digits)
    with (map N.of_nat (seq 65 26) ++ map N.of_nat (seq 48 10)).
  apply in_or_app.
  destruct H as [H | H]; [left | right];
    (rewrite <- (N2Nat.id c); apply in_map; apply in_seq; lia).
Qed.

(** The character at each position is the one that the draw of that
    position selects. *)
Lemma join_choices_value (characters : str) (n : nat) (w : World) :
  fst (join_choices characters n w)
  = map (fun j => nth (draws (random w) j mod length characters)
                    characters 0%N)
      (seq (cursor (random w)) n).
Proof.
  revert w. induction n as [|n IH]; intros w; simpl.
  - reflexivity.
  - unfold bind, choice, randbelow, ret; simpl.
    match goal with |- context [join_choices characters n ?w1] =>
      specialize (IH w1); destruct (join_choices characters n w1) as [cs w']
    end.
    simpl in *. now rewrite IH.
Qed.

Lemma indices_of (characters target : str) :
  Forall (fun c => In c characters) target ->
  exists idxs,
    length idxs = length target /\
    forall j, j < length target ->
      nth j idxs 0 < length characters /\
      nth (nth j idxs 0) characters 0%N = nth j target 0%N.
Proof.
  induction 1 as [|c target Hc _ IH].
  - exists []. split; [reflexivity |]. simpl. intros j Hj. lia.
  - destruct IH as (idxs & Hl & Hn).
    destruct (In_nth _ _ 0%N Hc) as (i & Hi & Hnth).
    exists (i :: idxs). split; [simpl; now rewrite Hl |].
    intros [|j] Hj; simpl in *; [now split | apply Hn; lia].
Qed.

Lemma nth_map_seq (A : Type) (f : nat -> A) (k n j : nat) (d : A) :
  j < n -> nth j (map f (seq k n)) d = f (k + j).
Proof.
  intros Hj.
  rewrite (nth_indep _ d (f 0)) by now rewrite length_map, length_seq.
  now rewrite map_nth, seq_nth.
Qed.

(** Draws for which the characters selected from draw [k] on spell
    [target]. *)
Lemma draws_that_spell (target : str) (k : nat) :
  Forall alphanumeric target ->
  exists f,
    map (fun j => nth (f j mod length (ascii_uppercase ++ digits))
                    (ascii_uppercase ++ digits) 0%N)
      (seq k (length target))
    = target.
Proof.
  intros H.
  assert (Hin : Forall (fun c => In c (ascii_uppercase ++ digits)) target).
  { eapply Forall_impl; [| exact H].
    intros c Hc. now apply alphanumeric_in_characters. }
  destruct (@indices_of _ _ Hin) as (idxs & Hl & Hn).
  exists (fun j => nth (j - k) idxs 0).
  apply nth_ext with (d := 0%N) (d' := 0%N).
  - now rewrite length_map, length_seq.
  - intros j Hj. rewrite length_map, length_seq in Hj.
    rewrite nth_map_seq by assumption.
    replace (k + j - k) with j by lia.
    destruct (Hn j Hj) as (Hlt & Heq).
    rewrite Nat.mod_small by exact Hlt. exact Heq.
Qed.

(** X3.  Every string over the alphabet can come out: for each string of
    [A]-[Z], [0]-[9] there is a sequence of draws for which
    [generate_random_string] of its length returns it. *)
Theorem every_token_is_possible (target : str) (w : World) :
  Forall alphanumeric target ->
  exists f,
    fst (generate_random_string (len target)
           {| random := {| draws := f; cursor := cursor (random w) |};
              records := records w;
              disk := disk w |})
    = target.
Proof.
  intros H.
  destruct (draws_that_spell (cursor (random w)) H) as (f & Hf).
  exists f.
  unfold generate_random_string, len. rewrite Nat2Z.id.
  rewrite join_choices_value. exact Hf.
Qed.

(** ** mask_serial_number *)

Lemma mask_serial_number_records (m : Match) (w : World) :
  records (snd (mask_serial_number m w))
  = records w ++ [(DEBUG, Masking (group0 m) (fst (mask_serial_number m w)))].
Proof.
  unfold mask_serial_number, generate_random_string, bind, logging_debug,
    logging_log, ret.
  pose proof (join_choices_world (ascii_uppercase ++ digits)
                (Z.to_nat (len (group0 m))) w) as (Hr & _).
  destruct (join_choices _ _ w) as [masked w']. simpl in *.
  now rewrite Hr.
Qed.

(** X4.  A call logs exactly one record, at DEBUG level, that holds the
    matched text and the string returned; it draws one random value per
    character of the match and leaves the disk alone. *)
Theorem mask_serial_number_logs (m : Match) (w : World) :
  records (snd (mask_serial_number m w))
  = records w ++ [(DEBUG, Masking (group0 m) (fst (mask_serial_number m w)))]
  /\
  cursor (random (snd (mask_serial_number m w)))
  = cursor (random w) + length (group0 m) /\
  draws (random (snd (mask_serial_number m w))) = draws (random w) /\
  disk (snd (mask_serial_number m w)) = disk w.
Proof.
  unfold mask_serial_number, generate_random_string, bind, logging_debug,
    logging_log, ret, len.
  pose proof (join_choices_world (ascii_uppercase ++ digits)
                (Z.to_nat (Z.of_nat (length (group0 m)))) w)
    as (Hr & Hd & Hf & Hc).
  destruct (join_choices _ _ w) as [masked w']. simpl in *.
  rewrite Hr, Hc, Nat2Z.id. repeat split; assumption.
Qed.

(** X20.  Masking does not promise a different value: for a match whose
    text is alphanumeric there is a sequence of draws for which the
    replacement is the matched text itself. *)
Theorem replacement_may_equal_match (m : Match) (w : World) :
  Forall alphanumeric (group0 m) ->
  exists f,
    fst (mask_serial_number m
           {| random := {| draws := f; cursor := cursor (random w) |};
              records := records w;
              disk := disk w |})
    = group0 m.
Proof.
  intros H.
  destruct (draws_that_spell (cursor (random w)) H) as (f & Hf).
  exists f.
  unfold mask_serial_number, generate_random_string, bind, logging_debug,
    logging_log, ret, len.
  rewrite Nat2Z.id.
  match goal with |- context [join_choices ?cs ?n ?w1] =>
    pose proof (join_choices_value cs n w1) as Hv;
    destruct (join_choices cs n w1) as [masked w']
  end.
  simpl in *. now rewrite Hv.
Qed.

(** ** mask_serial_numbers_in_text *)

Lemma Forall2_same (A : Type) (R : A -> A -> Prop) (l : list A) :
  (forall x, R x x) -> Forall2 R l l.
Proof.
  intros H. induction l; constructor; auto.
Qed.

Lemma Forall2_of_Forall (A : Type) (P : A -> Prop) (l l' : list A) :
  length l = length l' -> Forall P l' -> Forall2 (fun _ d => P d) l l'.
Proof.
  revert l'. induction l as [|x l IH]; intros [|y l'] Hl H;
    try discriminate; constructor.
  - now inversion H.
  - apply IH; [now injection Hl | now inversion H].
Qed.

Lemma Forall2_compose (A : Type) (R : A -> A -> Prop) (l1 l2 l3 : list A) :
  (forall x y z, R x y -> R y z -> R x z) ->
  Forall2 R l1 l2 -> Forall2 R l2 l3 -> Forall2 R l1 l3.
Proof.
  intros Ht H12. revert l3.
  induction H12 as [|x y l1 l2 Hxy _ IH]; intros l3 H23;
    inversion H23; subst; constructor; eauto.
Qed.

Lemma kept_or_masked_trans (c d e : char) :
  kept_or_masked c d -> kept_or_masked d e -> kept_or_masked c e.
Proof.
  unfold kept_or_masked. intros [-> | Hd] [-> | He]; auto.
Qed.

Section MaskingFurther.

Variable E : Engine.

Lemma sub_loop_kept_or_masked (p : Pattern E) (s : str) (i : nat)
    (adv : bool) (w w' : World) (out : str) :
  sub_loop E p mask_serial_number s i adv w out w' ->
  i <= length s ->
  Forall2 kept_or_masked (slice s i (length s)) out.
Proof.
  induction 1 as [i adv w Hs | i adv w b e item w1 rest w2 Hs Hr _ IH];
    intros Hi.
  - apply Forall2_same. now left.
  - pose proof (search_bounds E p s i adv Hs) as (Hib & Hbe & Hes).
    rewrite <- (slice_join s (i := i) (j := b) (k := length s)) by lia.
    rewrite <- (slice_join s (i := b) (j := e) (k := length s)) by lia.
    apply Forall2_app; [apply Forall2_same; now left |].
    apply Forall2_app; [| apply IH; lia].
    pose proof (mask_serial_number_length_nat
                  {| m_string := s; m_start := b; m_end := e |} w) as Hl.
    pose proof (mask_serial_number_alphanumeric
                  {| m_string := s; m_start := b; m_end := e |} w) as Ha.
    rewrite Hr in Hl, Ha. simpl in Hl, Ha.
    eapply Forall2_impl;
      [| apply (Forall2_of_Forall (P := alphanumeric));
           [symmetry; exact Hl | exact Ha]].
    intros c d Hd. now right.
Qed.

Lemma nth_slice (s : str) (i j k : nat) (d : char) :
  i <= k -> k < j -> j <= length s ->
  nth (k - i) (slice s i j) d = nth k s d.
Proof.
  intros Hik Hkj Hj. unfold slice.
  rewrite nth_firstn.
  destruct (Nat.ltb_spec (k - i) (j - i)); [| lia].
  rewrite nth_skipn. f_equal. lia.
Qed.

Lemma matches_start (fuel : nat) (p : Pattern E) (s : str) (i : nat)
    (adv : bool) (span : nat * nat) :
  In span (matches E fuel p s i adv) -> i <= fst span.
Proof.
  revert i adv. induction fuel as [|fuel IH]; intros i adv; simpl.
  - contradiction.
  - destruct (search E p s i adv) as [[b e]|] eqn:Hs; [| contradiction].
    pose proof (search_bounds E p s i adv Hs) as (Hib & Hbe & _).
    intros [<- | H]; [exact Hib |].
    apply IH in H. lia.
Qed.

Lemma inside_cons (k b e : nat) (spans : list (nat * nat)) :
  inside k ((b, e) :: spans) = (b <=? k) && (k <? e) || inside k spans.
Proof. reflexivity. Qed.

Lemma not_inside_before (fuel : nat) (p : Pattern E) (s : str) (i : nat)
    (adv : bool) (k : nat) :
  k < i -> inside k (matches E fuel p s i adv) = false.
Proof.
  intros Hk. unfold inside.
  destruct (existsb _ _) eqn:Hex; [| reflexivity].
  apply existsb_exists in Hex. destruct Hex as (span & Hin & Hc).
  apply matches_start in Hin.
  apply andb_true_iff in Hc. destruct Hc as [Hc _].
  apply Nat.leb_le in Hc. lia.
Qed.

(** The fuel that [finditer] gives is never used up. *)
Lemma matches_fuel (fuel : nat) (p : Pattern E) (s : str) (i : nat)
    (adv : bool) :
  remaining s i adv < fuel ->
  matches E (S fuel) p s i adv = matches E fuel p s i adv.
Proof.
  revert i adv. induction fuel as [|fuel IH]; intros i adv Hf; [lia |].
  cbn [matches]. destruct (search E p s i adv) as [[b e]|] eqn:Hs;
    [| reflexivity].
  pose proof (remaining_decreases E p s i adv Hs) as Hd.
  f_equal. rewrite <- (IH e (Nat.eqb e b)) by lia. reflexivity.
Qed.

Lemma subx_positions (fuel : nat) (p : Pattern E) (s : str) (i : nat)
    (adv : bool) (w : World) (k : nat) :
  i <= k -> k < length s ->
  if inside k (matches E fuel p s i adv)
  then alphanumeric (nth (k - i) (fst (subx E fuel p mask_serial_number
                                         s i adv w)) 0%N)
  else nth (k - i) (fst (subx E fuel p mask_serial_number s i adv w)) 0%N
       = nth k s 0%N.
Proof.
  revert i adv w. induction fuel as [|fuel IH]; intros i adv w Hik Hk.
  - simpl. apply nth_slice; lia.
  - cbn [matches].
    destruct (search E p s i adv) as [[b e]|] eqn:Hs.
    + pose proof (search_bounds E p s i adv Hs) as (Hib & Hbe & Hes).
      rewrite (subx_match E p s mask_serial_number fuel i adv w Hs).
      pose proof (mask_serial_number_length_nat
                    {| m_string := s; m_start := b; m_end := e |} w) as Hl.
      pose proof (mask_serial_number_alphanumeric
                    {| m_string := s; m_start := b; m_end := e |} w) as Ha.
      unfold group0 in Hl. simpl in Hl. rewrite slice_length in Hl by lia.
      assert (Hls : length (slice s i b) = b - i) by (apply slice_length; lia).
      rewrite inside_cons.
      destruct (Nat.leb_spec b k) as [Hbk | Hkb].
      * destruct (Nat.ltb_spec k e) as [Hke | Hek]; cbn [andb orb].
        -- rewrite app_nth2 by lia. rewrite app_nth1 by lia.
           rewrite Forall_forall in Ha. apply Ha. apply nth_In. lia.
        -- specialize (IH e (Nat.eqb e b)
                          (snd (mask_serial_number
                                  {| m_string := s; m_start := b;
                                     m_end := e |} w)) Hek Hk).
           rewrite app_nth2 by lia. rewrite app_nth2 by lia.
           replace (k - i - length (slice s i b)
                    - length (fst (mask_serial_number
                                     {| m_string := s; m_start := b;
                                        m_end := e |} w)))
             with (k - e) by lia.
           exact IH.
      * cbn [andb orb].
        rewrite (@not_inside_before fuel p s e (Nat.eqb e b) k) by lia.
        rewrite app_nth1 by lia. apply nth_slice; lia.
    + simpl. rewrite Hs. simpl. apply nth_slice; lia.
Qed.

(** X5.  In the pass of one pattern, every character outside the spans that
    [re.finditer] reports for the pattern is the character of the input,
    and every character inside one is alphanumeric.  Over any list of
    patterns, each character of a returned text is the character of the
    input at that position or an alphanumeric. *)
Theorem masking_keeps_or_masks (text : str) (serial_patterns : list str)
    (w : World) (out : str) :
  fst (mask_serial_numbers_in_text E text serial_patterns w)
  = Return (Some out) ->
  Forall2 kept_or_masked text out /\
  forall pattern p,
    serial_patterns = [pattern] ->
    compile E pattern = Compiled p ->
    forall k, k < length text ->
      if inside k (finditer E p text)
      then alphanumeric (nth k out 0%N)
      else nth k out 0%N = nth k text 0%N.
Proof.
  intros H. split.
  - unfold mask_serial_numbers_in_text in H.
    revert text w H. induction serial_patterns as [|pattern rest IH];
      intros text w H.
    + simpl in H. injection H as <-. apply Forall2_same. now left.
    + destruct (compile E pattern) as [p| |e] eqn:Hc.
      * rewrite (for_patterns_compiled E pattern rest text w Hc) in H.
        apply IH in H.
        pose proof (re_sub_runs_the_loop E p text mask_serial_number w) as Hl.
        apply sub_loop_kept_or_masked in Hl; [| lia].
        rewrite slice_all in Hl.
        eapply Forall2_compose;
          [apply kept_or_masked_trans | exact Hl | exact H].
      * simpl in H. rewrite Hc in H. discriminate.
      * simpl in H. rewrite Hc in H. discriminate.
  - intros pattern p -> Hc k Hk.
    unfold mask_serial_numbers_in_text in H.
    rewrite (for_patterns_compiled E pattern [] text w Hc) in H.
    simpl in H. injection H as <-.
    pose proof (@subx_positions (2 + 2 * length text) p text 0 false w k
                  ltac:(lia) Hk) as Hp.
    rewrite Nat.sub_0_r in Hp. exact Hp.
Qed.

Lemma sub_loop_records (p : Pattern E) (s : str) (i : nat) (adv : bool)
    (w w' : World) (out : str) :
  sub_loop E p mask_serial_number s i adv w out w' ->
  exists added,
    records w' = records w ++ added /\
    Forall (fun r => fst r = level_of (snd r)) added.
Proof.
  induction 1 as [i adv w Hs | i adv w b e item w1 rest w2 Hs Hr _ IH].
  - exists []. split; [now rewrite app_nil_r | constructor].
  - destruct IH as (added & Hrec & Hall).
    pose proof (mask_serial_number_records
                  {| m_string := s; m_start := b; m_end := e |} w)
      as Hm.
    rewrite Hr in Hm. simpl in Hm.
    eexists. split.
    + rewrite Hrec, Hm, <- app_assoc. reflexivity.
    + constructor; [reflexivity | exact Hall].
Qed.

End MaskingFurther.

Section MaskingEffects.

Variable E : Engine.

Lemma for_patterns_records (serial_patterns : list str) (text : str)
    (w : World) :
  exists added,
    records (snd (for_patterns E serial_patterns text w))
    = records w ++ added /\
    Forall (fun r => fst r = level_of (snd r)) added.
Proof.
  revert text w. induction serial_patterns as [|pattern rest IH]; intros text w.
  - exists []. split; [simpl; now rewrite app_nil_r | constructor].
  - destruct (compile E pattern) as [p| |e] eqn:Hc.
    + rewrite (for_patterns_compiled E pattern rest text w Hc).
      pose proof (re_sub_runs_the_loop E p text mask_serial_number w) as Hl.
      apply sub_loop_records in Hl. destruct Hl as (a1 & H1 & F1).
      destruct (IH (fst (re_sub E p mask_serial_number text w))
                   (snd (re_sub E p mask_serial_number text w)))
        as (a2 & H2 & F2).
      exists (a1 ++ a2). split.
      * rewrite H2, H1, app_assoc. reflexivity.
      * apply Forall_app. now split.
    + simpl. rewrite Hc. simpl. eexists. split; [reflexivity |].
      constructor; [reflexivity | constructor].
    + simpl. rewrite Hc. simpl. exists [].
      split; [now rewrite app_nil_r | constructor].
Qed.

(** X6.  Masking never touches the file system, and it only adds to the
    log: the records already there stay, and each record added carries the
    level of its message, the matched texts at DEBUG only. *)
Theorem masking_effects (text : str) (serial_patterns : list str) (w : World) :
  disk (snd (mask_serial_numbers_in_text E text serial_patterns w)) = disk w /\
  exists added,
    records (snd (mask_serial_numbers_in_text E text serial_patterns w))
    = records w ++ added /\
    Forall (fun r => fst r = level_of (snd r)) added.
Proof.
  unfold mask_serial_numbers_in_text. split.
  - apply for_patterns_disk.
  - apply for_patterns_records.
Qed.

Lemma all_compile_returns_text (serial_patterns : list str) (text : str)
    (w : World) :
  forallb (compiles E) serial_patterns = true ->
  exists out,
    fst (for_patterns E serial_patterns text w) = Return (Some out).
Proof.
  revert text w. induction serial_patterns as [|pattern rest IH];
    intros text w H.
  - exists text. reflexivity.
  - simpl in H. apply andb_true_iff in H. destruct H as [Hp Hr].
    unfold compiles in Hp.
    destruct (compile E pattern) as [p| |e] eqn:Hc; try discriminate.
    rewrite (for_patterns_compiled E pattern rest text w Hc). now apply IH.
Qed.

(** X7.  Masking returns a text exactly when every pattern of the list
    compiles; otherwise it returns [None] or raises, whatever the text. *)
Theorem masking_returns_text_iff (text : str) (serial_patterns : list str)
    (w : World) :
  (exists out,
     fst (mask_serial_numbers_in_text E text serial_patterns w)
     = Return (Some out))
  <-> forallb (compiles E) serial_patterns = true.
Proof.
  split.
  - intros (out & H). unfold mask_serial_numbers_in_text in H.
    revert text w H. induction serial_patterns as [|pattern rest IH];
      intros text w H.
    + reflexivity.
    + simpl. unfold compiles at 1.
      destruct (compile E pattern) as [p| |e] eqn:Hc.
      * rewrite (for_patterns_compiled E pattern rest text w Hc) in H.
        simpl. now apply IH in H.
      * simpl in H. rewrite Hc in H. discriminate.
      * simpl in H. rewrite Hc in H. discriminate.
  - intros H. now apply all_compile_returns_text.
Qed.

Lemma for_patterns_app (ps qs : list str) (text : str) (w : World) :
  forallb (compiles E) ps = true ->
  exists t1 w1,
    for_patterns E ps text w = (Return (Some t1), w1) /\
    for_patterns E (ps ++ qs) text w = for_patterns E qs t1 w1.
Proof.
  revert text w. induction ps as [|pattern ps IH]; intros text w H.
  - exists text, w. split; reflexivity.
  - simpl in H. apply andb_true_iff in H. destruct H as [Hp Hr].
    unfold compiles in Hp.
    destruct (compile E pattern) as [p| |e] eqn:Hc; try discriminate.
    rewrite <- app_comm_cons.
    rewrite (for_patterns_compiled E pattern ps text w Hc).
    rewrite (for_patterns_compiled E pattern (ps ++ qs) text w Hc).
    now apply IH.
Qed.

(** X8.  Masking with two lists of patterns one after the other, the first
    of which compiles, is masking with the first list and then masking the
    text it returns with the second, the random generator and the log going
    on from where the first pass left them. *)
Theorem masking_composes (ps qs : list str) (text : str) (w : World) :
  forallb (compiles E) ps = true ->
  exists t1 w1,
    mask_serial_numbers_in_text E text ps w = (Return (Some t1), w1) /\
    mask_serial_numbers_in_text E text (ps ++ qs) w
    = mask_serial_numbers_in_text E t1 qs w1.
Proof.
  intros H. unfold mask_serial_numbers_in_text. now apply for_patterns_app.
Qed.

(** X9.  The first pattern that does not compile decides the call, and the
    patterns after it are never looked at: an [re.error] makes it return
    [None] with an ERROR record naming the pattern as the last record; any
    other exception of the compiler escapes the call. *)
Theorem first_failure_decides (good : list str) (bad : str) (rest : list str)
    (text : str) (w : World) :
  forallb (compiles E) good = true ->
  compiles E bad = false ->
  mask_serial_numbers_in_text E text (good ++ bad :: rest) w
  = mask_serial_numbers_in_text E text (good ++ [bad]) w /\
  match compile E bad with
  | raises e =>
      fst (mask_serial_numbers_in_text E text (good ++ bad :: rest) w)
      = Raise e
  | _ =>
      fst (mask_serial_numbers_in_text E text (good ++ bad :: rest) w)
      = Return None /\
      exists earlier,
        records (snd (mask_serial_numbers_in_text E text
                        (good ++ bad :: rest) w))
        = earlier ++ [(ERROR, InvalidRegularExpression bad)]
  end.
Proof.
  intros Hg Hb. unfold mask_serial_numbers_in_text.
  destruct (@for_patterns_app good (bad :: rest) text w Hg)
    as (t1 & w1 & H1 & H2).
  destruct (@for_patterns_app good [bad] text w Hg)
    as (t1' & w1' & H1' & H2').
  rewrite H1 in H1'. injection H1' as <- <-.
  rewrite H2, H2'. unfold compiles in Hb. simpl.
  destruct (compile E bad) as [p| |e]; try discriminate.
  - split; [reflexivity |]. split; [reflexivity |].
    exists (records w1). reflexivity.
  - split; reflexivity.
Qed.

End MaskingEffects.

(** ** process_file *)

Section PipelineFurther.

Variable E : Engine.
Variable C : Codecs.

(** The result of a run and what it can have done to the disk: nothing, with
    a result other than [True]; or, the output path being open for writing,
    data put under it, with the result [True] only over the emptied file. *)
Lemma process_file_run (input_file output_file : path)
    (serial_patterns : list str) (w : World)
    (P : result bool -> FileSystem -> Prop) :
  (forall r, r <> Return true -> P r (disk w)) ->
  (nodes (disk w) output_file <> Some Directory ->
   write_refused (disk w) output_file = false ->
   forall data,
     P (Return false) (store (disk w) output_file data) /\
     P (Return false)
       (store (store (disk w) output_file []) output_file data) /\
     P (Return true)
       (store (store (disk w) output_file []) output_file data)) ->
  P (fst (process_file E C input_file output_file serial_patterns w))
    (disk (snd (process_file E C input_file output_file serial_patterns w))).
Proof.
  intros H0 H1. unfold process_file, bind, read_file.
  destruct (nodes (disk w) input_file) as [[raw_data|]|];
    try (apply H0; discriminate).
  destruct (read_refused (disk w) input_file); try (apply H0; discriminate).
  destruct (detect C raw_data) as [enc|]; try (apply H0; discriminate).
  destruct (decode C enc raw_data) as [text| |];
    try (apply H0; discriminate).
  pose proof (for_patterns_disk E serial_patterns text w) as Hdisk.
  unfold mask_serial_numbers_in_text.
  destruct (for_patterns E serial_patterns text w) as [[[masked_text|]|e] w1];
    simpl in Hdisk;
    try (simpl; rewrite Hdisk; apply H0; discriminate).
  unfold open_w, write_bytes. rewrite Hdisk.
  destruct (nodes (disk w) output_file) as [[old|]|] eqn:Ho;
    destruct (write_refused (disk w) output_file) eqn:Hw;
    try (simpl; rewrite Hdisk; apply H0; discriminate);
    (destruct (encode C enc masked_text) as [data|];
       [| simpl; apply H1; [discriminate | reflexivity]]);
    cbn [with_disk disk store room];
    (destruct (room (disk w) output_file) as [n|];
       [destruct (n <? length data) |]);
    simpl; apply H1; (discriminate || reflexivity).
Qed.


(** X11.  When the output path is a directory, or opening it for writing is
    refused, the run leaves the whole disk as it was and does not return
    [True]. *)
Theorem unwritable_output_fails (input_file output_file : path)
    (serial_patterns : list str) (w : World) :
  nodes (disk w) output_file = Some Directory \/
  write_refused (disk w) output_file = true ->
  disk (snd (process_file E C input_file output_file serial_patterns w))
  = disk w /\
  fst (process_file E C input_file output_file serial_patterns w)
  <> Return true.
Proof.
  intros H.
  apply (process_file_run input_file output_file serial_patterns w
           (fun r fs => fs = disk w /\ r <> Return true)).
  - intros r Hr. now split.
  - intros Hn Hw. destruct H as [H | H]; congruence.
Qed.

Lemma for_patterns_log (serial_patterns : list str) (text : str)
    (w : World) :
  exists added,
    records (snd (for_patterns E serial_patterns text w))
    = records w ++ added /\
    Forall (fun r => fst r = level_of (snd r)) added /\
    (fst (for_patterns E serial_patterns text w) = Return None ->
     exists earlier m, added = earlier ++ [(ERROR, m)]).
Proof.
  revert text w. induction serial_patterns as [|pattern rest IH]; intros text w.
  - exists []. split; [simpl; now rewrite app_nil_r |].
    split; [constructor | discriminate].
  - destruct (compile E pattern) as [p| |e] eqn:Hc.
    + rewrite (for_patterns_compiled E pattern rest text w Hc).
      pose proof (re_sub_runs_the_loop E p text mask_serial_number w) as Hl.
      apply sub_loop_records in Hl. destruct Hl as (a1 & H1 & F1).
      destruct (IH (fst (re_sub E p mask_serial_number text w))
                   (snd (re_sub E p mask_serial_number text w)))
        as (a2 & H2 & F2 & T2).
      exists (a1 ++ a2). split; [| split].
      * rewrite H2, H1, app_assoc. reflexivity.
      * apply Forall_app. now split.
      * intros Hn. destruct (T2 Hn) as (earlier & m & ->).
        exists (a1 ++ earlier), m. now rewrite app_assoc.
    + simpl. rewrite Hc. simpl. eexists. split; [reflexivity |].
      split; [constructor; [reflexivity | constructor] |].
      intros _. exists [], (InvalidRegularExpression pattern). reflexivity.
    + simpl. rewrite Hc. simpl. exists [].
      split; [now rewrite app_nil_r |]. split; [constructor | discriminate].
Qed.

Lemma process_file_added (input_file output_file : path)
    (serial_patterns : list str) (w : World) :
  exists added,
    records (snd (process_file E C input_file output_file serial_patterns w))
    = records w ++ added /\
    Forall (fun r => fst r = level_of (snd r)) added /\
    match fst (process_file E C input_file output_file serial_patterns w) with
    | Return true =>
        exists earlier,
          added = earlier
                  ++ [(INFO, SuccessfullyProcessed input_file output_file)]
    | Return false => exists earlier m, added = earlier ++ [(ERROR, m)]
    | Raise _ => True
    end.
Proof.
  unfold process_file, bind, read_file.
  destruct (nodes (disk w) input_file) as [[raw_data|]|];
    try (simpl; eexists; split; [reflexivity |];
         split; [repeat constructor | exists []; eexists; reflexivity]).
  destruct (read_refused (disk w) input_file);
    try (simpl; eexists; split; [reflexivity |];
         split; [repeat constructor | exists []; eexists; reflexivity]).
  destruct (detect C raw_data) as [enc|];
    try (simpl; eexists; split; [reflexivity |];
         split; [repeat constructor | exists []; eexists; reflexivity]).
  destruct (decode C enc raw_data) as [text| |];
    try (simpl; eexists; split; [reflexivity |];
         split; [repeat constructor | exists []; eexists; reflexivity]).
  destruct (for_patterns_log serial_patterns text w) as (a1 & H1 & F1 & T1).
  unfold mask_serial_numbers_in_text.
  destruct (for_patterns E serial_patterns text w) as [[[masked_text|]|e] w1];
    simpl in H1, T1.
  - unfold open_w, write_bytes.
    destruct (nodes (disk w1) output_file) as [[old|]|];
      destruct (write_refused (disk w1) output_file);
      try (destruct (encode C enc masked_text) as [data|]);
      cbn [with_disk disk store room];
      try (destruct (room (disk w1) output_file) as [n|];
           [destruct (n <? length data) |]);
      simpl; eexists;
      (split; [rewrite H1, <- app_assoc; reflexivity |]);
      (split;
         [apply Forall_app; split;
            [exact F1 | constructor; [reflexivity | constructor]]
         | first [exists a1; reflexivity | exists a1; eexists; reflexivity]]).
  - simpl. exists a1. split; [exact H1 |]. split; [exact F1 |].
    now apply T1.
  - simpl. exists a1. split; [exact H1 |]. split; [exact F1 | exact I].
Qed.

(** X12.  A run only adds to the log, each record at the level of its
    message, and the last record tells the outcome: after [True] it is the
    INFO record naming both paths, after [False] it is an ERROR record. *)
Theorem process_file_log (input_file output_file : path)
    (serial_patterns : list str) (w : World) :
  (exists added,
     records (snd (process_file E C input_file output_file
                     serial_patterns w))
     = records w ++ added /\
     Forall (fun r => fst r = level_of (snd r)) added) /\
  (fst (process_file E C input_file output_file serial_patterns w)
   = Return true ->
   exists earlier,
     records (snd (process_file E C input_file output_file
                     serial_patterns w))
     = earlier ++ [(INFO, SuccessfullyProcessed input_file output_file)]) /\
  (fst (process_file E C input_file output_file serial_patterns w)
   = Return false ->
   exists earlier m,
     records (snd (process_file E C input_file output_file
                     serial_patterns w))
     = earlier ++ [(ERROR, m)]).
Proof.
  destruct (process_file_added input_file output_file serial_patterns w)
    as (added & Hrec & Hall & Htail).
  split; [exists added; now split |].
  split; intros Hr; rewrite Hr in Htail.
  - destruct Htail as (earlier & ->).
    exists (records w ++ earlier). now rewrite Hrec, app_assoc.
  - destruct Htail as (earlier & m & ->).
    exists (records w ++ earlier), m. now rewrite Hrec, app_assoc.
Qed.

Lemma for_patterns_unmatched (serial_patterns : list str) (text : str)
    (w : World) :
  forallb (unmatched E text) serial_patterns = true ->
  for_patterns E serial_patterns text w = (Return (Some text), w).
Proof.
  induction serial_patterns as [|pattern rest IH]; intros H.
  - reflexivity.
  - simpl in H. apply andb_true_iff in H. destruct H as [Hp Hr].
    unfold unmatched in Hp.
    destruct (compile E pattern) as [p| |e] eqn:Hc; try discriminate.
    destruct (search E p text 0 false) eqn:Hs; try discriminate.
    rewrite (for_patterns_compiled E pattern rest text w Hc).
    rewrite re_sub_no_match by exact Hs. simpl. now apply IH.
Qed.

(** X13.  A file with nothing to mask is copied byte for byte: when the
    input decodes to a text in which no pattern matches, the codec encodes
    that text back to the bytes read, and the output can be opened and
    takes them, the run returns [True], the output holds the bytes of the
    input, and no random value is drawn. *)
Theorem nothing_to_mask_copies (input_file output_file : path)
    (serial_patterns : list str) (w : World) (raw_data : bytes)
    (enc : encoding) (text : str) :
  read_file input_file w = (Opened raw_data, w) ->
  detect C raw_data = Some enc ->
  decode C enc raw_data = Decoded text ->
  encode C enc text = Some raw_data ->
  forallb (unmatched E text) serial_patterns = true ->
  writable (disk w) output_file = true ->
  takes (disk w) output_file (length raw_data) = true ->
  process_file E C input_file output_file serial_patterns w
  = (Return true,
     {| random := random w;
        records := records w
                   ++ [(INFO, SuccessfullyProcessed input_file output_file)];
        disk := store (store (disk w) output_file []) output_file raw_data |}).
Proof.
  intros Hr Hd Hdec Henc Hu Hw Ht.
  unfold process_file, bind. rewrite Hr, Hd, Hdec.
  unfold mask_serial_numbers_in_text.
  rewrite (for_patterns_unmatched serial_patterns text w Hu).
  unfold open_w, writable, takes in *.
  destruct (nodes (disk w) output_file) as [[old|]|];
    try discriminate;
    (destruct (write_refused (disk w) output_file); [discriminate |]);
    rewrite Henc; unfold write_bytes; cbn [with_disk disk store room];
    (destruct (room (disk w) output_file) as [n|];
       [apply Nat.leb_le in Ht;
        destruct (Nat.ltb_spec n (length raw_data)); [lia |] |]);
    reflexivity.
Qed.

End PipelineFurther.

(** ** main *)

Section MainFacts.

Variable E : Engine.
Variable C : Codecs.

(** X14.  When the input path does not exist, [main] stops before the
    pipeline: it returns, the world (random generator, pipeline log, disk)
    is untouched, and its last announcement is the error naming the path. *)
Theorem missing_input_stops_main (args : Namespace) (ps : Process) :
  os_path_exists (disk (world ps)) (input_file args) = false ->
  fst (main E C args ps) = Return tt /\
  world (snd (main E C args ps)) = world ps /\
  exists earlier,
    announced (snd (main E C args ps))
    = earlier ++ [(ERROR, InputFileDoesNotExist (input_file args))].
Proof.
  intros H. unfold main.
  destruct (debug args); cbn [world announce setLevel]; rewrite H; simpl;
    (split; [reflexivity |]); (split; [reflexivity |]);
    eexists; reflexivity.
Qed.

Lemma main_world (args : Namespace) (ps : Process) :
  world (snd (main E C args ps)) = world ps \/
  world (snd (main E C args ps))
  = snd (process_file E C (input_file args) (output_file args)
           (patterns args) (world ps)).
Proof.
  unfold main.
  destruct (debug args); cbn [world announce setLevel];
    (destruct (os_path_exists (disk (world ps)) (input_file args));
       [| left; reflexivity]);
    cbn [negb]; right;
    (destruct (process_file E C (input_file args) (output_file args)
                 (patterns args) (world ps)) as [[[|]|e] w1]);
    reflexivity.
Qed.


(** X16.  The debug flag changes logging only: with and without it [main]
    ends the same way and leaves the same world (the same files, the same
    masked text, the same records handed to [logging]). *)
Theorem debug_changes_logging_only (i o : path) (ps_ : list str)
    (ps : Process) :
  let on := {| input_file := i; output_file := o;
               patterns := ps_; debug := true |} in
  let off := {| input_file := i; output_file := o;
                patterns := ps_; debug := false |} in
  fst (main E C on ps) = fst (main E C off ps) /\
  world (snd (main E C on ps)) = world (snd (main E C off ps)) /\
  root_level (snd (main E C on ps)) = DEBUG /\
  root_level (snd (main E C off ps)) = root_level ps.
Proof.
  unfold main. cbn [debug input_file output_file patterns world announce
                    setLevel].
  destruct (os_path_exists (disk (world ps)) i); cbn [negb].
  - destruct (process_file E C i o ps_ (world ps)) as [[[|]|e] w1];
      repeat split.
  - repeat split.
Qed.

Lemma for_patterns_raise (serial_patterns : list str) (text : str)
    (w : World) (e : exception) :
  fst (for_patterns E serial_patterns text w) = Raise e ->
  exists pattern, In pattern serial_patterns /\ compile E pattern = raises e.
Proof.
  revert text w. induction serial_patterns as [|pattern rest IH];
    intros text w H.
  - discriminate.
  - destruct (compile E pattern) as [p| |e'] eqn:Hc.
    + rewrite (for_patterns_compiled E pattern rest text w Hc) in H.
      destruct (IH _ _ H) as (q & Hq & Hr). exists q. split; [now right | exact Hr].
    + simpl in H. rewrite Hc in H. discriminate.
    + simpl in H. rewrite Hc in H. injection H as ->.
      exists pattern. split; [now left | exact Hc].
Qed.

Lemma process_file_raise (i o : path) (serial_patterns : list str)
    (w : World) (e : exception) :
  fst (process_file E C i o serial_patterns w) = Raise e ->
  exists pattern, In pattern serial_patterns /\ compile E pattern = raises e.
Proof.
  unfold process_file, bind, read_file.
  destruct (nodes (disk w) i) as [[raw_data|]|]; try discriminate.
  destruct (read_refused (disk w) i); try discriminate.
  destruct (detect C raw_data) as [enc|]; try discriminate.
  destruct (decode C enc raw_data) as [text| |]; try discriminate.
  pose proof (@for_patterns_raise serial_patterns text w e) as Hraise.
  unfold mask_serial_numbers_in_text.
  destruct (for_patterns E serial_patterns text w) as [[[masked_text|]|e'] w1].
  - unfold open_w, write_bytes.
    destruct (nodes (disk w1) o) as [[old|]|];
      destruct (write_refused (disk w1) o);
      try (destruct (encode C enc masked_text) as [data|]);
      cbn [with_disk disk store room];
      try (destruct (room (disk w1) o) as [n|];
           [destruct (n <? length data) |]);
      discriminate.
  - discriminate.
  - simpl in *. intros H. injection H as ->. now apply Hraise.
Qed.

(** X17.  No failure of the files makes [main] raise: an exception escapes
    it only when compiling one of the patterns raises that exception (one
    that is not an [re.error]). *)
Theorem main_raises_only_from_patterns (args : Namespace) (ps : Process)
    (e : exception) :
  fst (main E C args ps) = Raise e ->
  exists pattern,
    In pattern (patterns args) /\ compile E pattern = raises e.
Proof.
  unfold main.
  destruct (debug args); cbn [world announce setLevel];
    (destruct (os_path_exists (disk (world ps)) (input_file args));
       cbn [negb]; [| discriminate]);
    pose proof (@process_file_raise (input_file args) (output_file args)
                  (patterns args) (world ps) e) as Hr;
    (destruct (process_file E C (input_file args) (output_file args)
                 (patterns args) (world ps)) as [[[|]|e'] w1]);
    try discriminate; simpl in *; intros H; injection H as ->;
    now apply Hr.
Qed.

(** X18.  Without the debug flag the matched texts stay out of the log
    shown: the threshold stays at INFO, and none of the records added that
    pass it holds a matched text. *)
Theorem matched_text_hidden_without_debug (args : Namespace) (w : World) :
  debug args = false ->
  root_level (snd (main E C args (at_start w))) = INFO /\
  exists added,
    records (world (snd (main E C args (at_start w)))) = records w ++ added /\
    Forall (fun r => shown INFO r = true ->
                     forall matched masked, snd r <> Masking matched masked)
      added.
Proof.
  intros Hd. split.
  - unfold main. rewrite Hd. cbn [world at_start].
    destruct (os_path_exists (disk w) (input_file args)); cbn [negb];
      [| reflexivity].
    destruct (process_file E C (input_file args) (output_file args)
                (patterns args) w) as [[[|]|e] w1]; reflexivity.
  - destruct (main_world args (at_start w)) as [-> | ->].
    + exists []. split; [simpl; now rewrite app_nil_r | constructor].
    + cbn [world at_start].
      destruct (process_file_added E C (input_file args) (output_file args)
                  (patterns args) w) as (added & Hrec & Hall & _).
      exists added. split; [exact Hrec |].
      eapply Forall_impl; [| exact Hall].
      intros [l m] Hl Hs matched masked Hm. simpl in *. subst m l.
      discriminate.
Qed.

(** X19.  [main] announces that masking failed exactly when the input path
    exists and the pipeline returned [False]. *)
Theorem failure_is_announced (args : Namespace) (w : World) :
  In (ERROR, SerialNumberMaskingFailed)
     (announced (snd (main E C args (at_start w))))
  <-> os_path_exists (disk w) (input_file args) = true /\
      fst (process_file E C (input_file args) (output_file args)
             (patterns args) w) = Return false.
Proof.
  unfold main.
  destruct (debug args); cbn [world announce setLevel at_start announced];
    (destruct (os_path_exists (disk w) (input_file args)); cbn [negb];
       [destruct (process_file E C (input_file args) (output_file args)
                    (patterns args) w) as [[[|]|e] w1] |]);
    simpl; intuition (try discriminate; try congruence).
Qed.

End MainFacts.

(** ** Runs for the further properties *)

Lemma AB12_alphanumeric : Forall alphanumeric (py "AB12").
Proof.
  repeat (constructor; [unfold alphanumeric; simpl; lia |]). constructor.
Qed.

Lemma every_token_is_possible_witness :
  Forall alphanumeric (py "AB12") /\
  exists f,
    fst (generate_random_string (len (py "AB12"))
           {| random := {| draws := f;
                           cursor := cursor (random (fresh_world empty_disk)) |};
              records := records (fresh_world empty_disk);
              disk := disk (fresh_world empty_disk) |})
    = py "AB12".
Proof.
  split; [exact AB12_alphanumeric |].
  apply (@every_token_is_possible (py "AB12") (fresh_world empty_disk)).
  exact AB12_alphanumeric.
Defined.

Lemma replacement_may_equal_match_witness :
  let m := {| m_string := py "AB12"; m_start := 0; m_end := 4 |} in
  Forall alphanumeric (group0 m) /\
  exists f,
    fst (mask_serial_number m
           {| random := {| draws := f;
                           cursor := cursor (random (fresh_world empty_disk)) |};
              records := records (fresh_world empty_disk);
              disk := disk (fresh_world empty_disk) |})
    = group0 m.
Proof.
  intros m. split; [exact AB12_alphanumeric |].
  apply (@replacement_may_equal_match m (fresh_world empty_disk)).
  exact AB12_alphanumeric.
Defined.

Lemma masking_keeps_or_masks_witness :
  let text := py "Device SN:AB12CD34EF shipped" in
  let out := py "Device DKRY5CJQX4BIP shipped" in
  let pattern := py "SN:[A-Z0-9]{10}" in
  fst (mask_serial_numbers_in_text Sre.engine text [pattern]
         (fresh_world empty_disk))
  = Return (Some out) /\
  Forall2 kept_or_masked text out /\
  exists p,
    compile Sre.engine pattern = Compiled p /\
    finditer Sre.engine p text = [(7, 20)] /\
    forall k, k < length text ->
      if inside k (finditer Sre.engine p text)
      then alphanumeric (nth k out 0%N)
      else nth k out 0%N = nth k text 0%N.
Proof.
  intros text out pattern.
  assert (Hrun : fst (mask_serial_numbers_in_text Sre.engine text [pattern]
                        (fresh_world empty_disk))
                 = Return (Some out)) by (vm_compute; reflexivity).
  split; [exact Hrun |].
  pose proof (@masking_keeps_or_masks Sre.engine text [pattern]
                (fresh_world empty_disk) out Hrun) as [Hall Hspans].
  split; [exact Hall |].
  eexists. split; [vm_compute; reflexivity |].
  split; [vm_compute; reflexivity |].
  apply (Hspans pattern _ eq_refl). vm_compute; reflexivity.
Defined.

Lemma masking_composes_witness :
  let ps := [py "[A-Z0-9]{8}-[A-Z0-9]{4}-[A-Z0-9]{4}-[A-Z0-9]{4}-[A-Z0-9]{12}";
             py "SN:[A-Z0-9]{10}"] in
  let qs := [py "[A-Z0-9]{15,20}"] in
  let text := py "Device SN:AB12CD34EF shipped" in
  let w := fresh_world empty_disk in
  forallb (compiles Sre.engine) ps = true /\
  exists t1 w1,
    mask_serial_numbers_in_text Sre.engine text ps w
    = (Return (Some t1), w1) /\
    mask_serial_numbers_in_text Sre.engine text (ps ++ qs) w
    = mask_serial_numbers_in_text Sre.engine t1 qs w1.
Proof.
  intros ps qs text w. split.
  - vm_compute; reflexivity.
  - apply (@masking_composes Sre.engine ps qs text w).
    vm_compute; reflexivity.
Defined.

Lemma first_failure_decides_witness :
  let good := [py "SN:[A-Z0-9]{10}"] in
  let bad := py "[" in
  let rest := [py "A{4294967296}"] in
  let text := py "Device SN:AB12CD34EF shipped" in
  let w := fresh_world empty_disk in
  forallb (compiles Sre.engine) good = true /\
  compiles Sre.engine bad = false /\
  fst (mask_serial_numbers_in_text Sre.engine text (good ++ bad :: rest) w)
  = Return None.
Proof.
  intros good bad rest text w.
  split; [vm_compute; reflexivity |].
  split; [vm_compute; reflexivity |].
  pose proof (@first_failure_decides Sre.engine good bad rest text w
                ltac:(vm_compute; reflexivity)
                ltac:(vm_compute; reflexivity)) as (_ & H).
  change (compile Sre.engine bad) with (@re_error Sre.pattern) in H.
  exact (proj1 H).
Defined.

Lemma unwritable_output_fails_witness :
  let fs := {| nodes := nodes (disk_with "in.txt" "SN:AB12CD34EF");
               read_refused := fun _ => false;
               write_refused := fun _ => true;
               room := fun _ => None |} in
  let w := fresh_world fs in
  (nodes (disk w) "out.txt" = Some Directory \/
   write_refused (disk w) "out.txt" = true) /\
  disk (snd (process_file Sre.engine ascii_codecs "in.txt" "out.txt"
               DEFAULT_SERIAL_PATTERNS w)) = disk w /\
  fst (process_file Sre.engine ascii_codecs "in.txt" "out.txt"
         DEFAULT_SERIAL_PATTERNS w) <> Return true.
Proof.
  intros fs w.
  assert (H : nodes (disk w) "out.txt" = Some Directory \/
              write_refused (disk w) "out.txt" = true)
    by (right; reflexivity).
  split; [exact H |].
  apply (@unwritable_output_fails Sre.engine ascii_codecs
           "in.txt" "out.txt" DEFAULT_SERIAL_PATTERNS w H).
Defined.

Lemma process_file_log_witness :
  let w := fresh_world (disk_with "in.txt" "Device SN:AB12CD34EF shipped") in
  fst (process_file Sre.engine ascii_codecs "in.txt" "out.txt"
         DEFAULT_SERIAL_PATTERNS w) = Return true /\
  exists earlier,
    records (snd (process_file Sre.engine ascii_codecs "in.txt" "out.txt"
                    DEFAULT_SERIAL_PATTERNS w))
    = earlier ++ [(INFO, SuccessfullyProcessed "in.txt" "out.txt")].
Proof.
  intros w.
  assert (H : fst (process_file Sre.engine ascii_codecs "in.txt" "out.txt"
                     DEFAULT_SERIAL_PATTERNS w) = Return true)
    by (vm_compute; reflexivity).
  split; [exact H |].
  exact (proj1 (proj2 (process_file_log Sre.engine ascii_codecs
                         "in.txt" "out.txt" DEFAULT_SERIAL_PATTERNS w)) H).
Defined.

Lemma nothing_to_mask_copies_witness :
  let w := fresh_world (disk_with "in.txt" "hello, world") in
  let raw_data := list_byte_of_string "hello, world" in
  read_file "in.txt" w = (Opened raw_data, w) /\
  detect ascii_codecs raw_data = Some "ascii"%string /\
  decode ascii_codecs "ascii" raw_data = Decoded (py "hello, world") /\
  encode ascii_codecs "ascii" (py "hello, world") = Some raw_data /\
  forallb (unmatched Sre.engine (py "hello, world")) DEFAULT_SERIAL_PATTERNS
  = true /\
  writable (disk w) "out.txt" = true /\
  takes (disk w) "out.txt" (length raw_data) = true /\
  process_file Sre.engine ascii_codecs "in.txt" "out.txt"
    DEFAULT_SERIAL_PATTERNS w
  = (Return true,
     {| random := random w;
        records := records w
                   ++ [(INFO, SuccessfullyProcessed "in.txt" "out.txt")];
        disk := store (store (disk w) "out.txt" []) "out.txt" raw_data |}).
Proof.
  intros w raw_data.
  repeat (split; [vm_compute; reflexivity |]).
  apply (@nothing_to_mask_copies Sre.engine ascii_codecs "in.txt" "out.txt"
           DEFAULT_SERIAL_PATTERNS w raw_data "ascii" (py "hello, world"));
    vm_compute; reflexivity.
Defined.

Lemma missing_input_stops_main_witness :
  let args := {| input_file := "missing.txt"; output_file := "out.txt";
                 patterns := DEFAULT_SERIAL_PATTERNS; debug := true |} in
  let ps := at_start (fresh_world empty_disk) in
  os_path_exists (disk (world ps)) (input_file args) = false /\
  fst (main Sre.engine ascii_codecs args ps) = Return tt /\
  world (snd (main Sre.engine ascii_codecs args ps)) = world ps /\
  exists earlier,
    announced (snd (main Sre.engine ascii_codecs args ps))
    = earlier ++ [(ERROR, InputFileDoesNotExist (input_file args))].
Proof.
  intros args ps. split; [reflexivity |].
  apply (@missing_input_stops_main Sre.engine ascii_codecs args ps).
  reflexivity.
Defined.

Lemma main_raises_only_from_patterns_witness :
  let args := {| input_file := "in.txt"; output_file := "out.txt";
                 patterns := [py "A{4294967296}"]; debug := false |} in
  let ps := at_start
              (fresh_world
                 (disk_with "in.txt" "Device SN:AB12CD34EF shipped")) in
  fst (main Sre.engine ascii_codecs args ps) = Raise OverflowError /\
  exists pattern,
    In pattern (patterns args) /\
    compile Sre.engine pattern = raises OverflowError.
Proof.
  intros args ps.
  assert (H : fst (main Sre.engine ascii_codecs args ps)
              = Raise OverflowError) by (vm_compute; reflexivity).
  split; [exact H |].
  apply (@main_raises_only_from_patterns Sre.engine ascii_codecs args ps
           OverflowError H).
Defined.

Lemma matched_text_hidden_without_debug_witness :
  let args := {| input_file := "in.txt"; output_file := "out.txt";
                 patterns := DEFAULT_SERIAL_PATTERNS; debug := false |} in
  let w := fresh_world (disk_with "in.txt" "Device SN:AB12CD34EF shipped") in
  debug args = false /\
  root_level (snd (main Sre.engine ascii_codecs args (at_start w))) = INFO /\
  exists added,
    records (world (snd (main Sre.engine ascii_codecs args (at_start w))))
    = records w ++ added /\
    Forall (fun r => shown INFO r = true ->
                     forall matched masked, snd r <> Masking matched masked)
      added.
Proof.
  intros args w. split; [reflexivity |].
  apply (@matched_text_hidden_without_debug Sre.engine ascii_codecs args w).
  reflexivity.
Defined.
